(** * A fixed-arena first-fit allocator (MyAlloc, [src/main.c])

    The allocator keeps an intrusive singly linked chain of chunk headers
    inside one raw memory span.  The development below embeds
    [heap_init], [heap_alloc], [heap_free] and [heap_sizeof] over a store
    of chunk headers indexed by address, and settles the properties of the
    specification against that embedding.

    Conventions of the embedding:
    - addresses are integers, [NULL] is [0]; pointer arithmetic is exact
      (the C code never leaves the span it was given);
    - [uint32_t] values are integers in [0, 2^32); every assignment to a
      [uint32_t] object is written with its reduction modulo 2^32;
    - the ABI is LP64: [sizeof (struct heapchunk_t)] is 16 and arithmetic
      that involves [sizeof] is carried out in the 64-bit [size_t];
    - memory is seen at the granularity of chunk headers: a finite map from
      the address of a header to its three fields.  Reading a header at an
      address that holds none is a fault of the model ([None]). *)

From stdpp Require Import gmap list fin_maps strings.
From Stdlib Require Import ZArith Lia.
From Stdlib Require DecimalString.

Open Scope Z_scope.

(** ** Constants and the alignment macro *)

Definition NULL : Z := 0.

(** [#define ALIGNMENT 8] *)
Definition ALIGNMENT : Z := 8.

(** [sizeof (struct heapchunk_t)]: 4 bytes of [size], 1 byte of [inuse],
    3 bytes of padding and an 8-byte pointer. *)
Definition HDR : Z := 16.

(** Conversion of an integer to [uint32_t]. *)
Definition wrap32 (z : Z) : Z := z mod 2 ^ 32.

(** [#define ALIGN(size) (((size) + (ALIGNMENT - 1)) & ~(ALIGNMENT - 1))]
    at type [uint32_t]: the addition is unsigned 32-bit, the mask [~7] is
    the [int] -8 converted to [unsigned], i.e. 0xFFFFFFF8. *)
Definition ALIGN (size : Z) : Z :=
  Z.land (wrap32 (size + (ALIGNMENT - 1))) (wrap32 (Z.lnot (ALIGNMENT - 1))).

(** The alignment in the words of the specification, to be compared
    with [ALIGN]: the size rounded up to the nearest multiple of 8, as an
    integer without wrap-around. *)
Definition round_up8 (n : Z) : Z := 8 * ((n + 7) / 8).

(** ** Data model *)

(** [struct heapchunk_t] *)
Record heapchunk_t : Type := mk_chunk {
  size : Z;      (* uint32_t: payload bytes, header excluded *)
  inuse : bool;  (* uint8_t used as a flag *)
  next : Z       (* struct heapchunk_t *: address of the next header or NULL *)
}.

(** [struct heapinfo_t] *)
Record heapinfo_t : Type := mk_heap {
  start : Z;     (* struct heapchunk_t *: first chunk *)
  avail : Z      (* uint32_t: cached amount of free payload *)
}.

(** The headers that live in memory, by address. *)
Abbreviation memory := (gmap Z heapchunk_t).

(** What the operations act upon: the descriptor and the span it points into. *)
Record heap_state : Type := mk_state {
  heap : heapinfo_t;
  mem : memory
}.

Definition set_inuse (c : heapchunk_t) (b : bool) : heapchunk_t :=
  {| size := size c; inuse := b; next := next c |}.

(** The walks of the chain are [while (p != NULL)] loops.  A walk that
    ends at [NULL] visits no header twice, so over a store with [k]
    headers it takes at most [k] steps: the loops are given [S k] steps,
    and running out of them ([None]) stands for a walk that does not
    end.  [chain_length] below shows that the bound is enough for every
    chain that ends. *)
Definition walk_bound (m : memory) : nat := S (base.size m).

(** ** [heap_alloc] *)

(** The test of line 79: [!chunk->inuse && chunk->size >= size]. *)
Definition fits (sz : Z) (c : heapchunk_t) : bool :=
  negb (inuse c) && (sz <=? size c).

(** The test of line 81:
    [chunk->size >= size + sizeof(struct heapchunk_t) + ALIGNMENT]. *)
Definition splits (sz : Z) (c : heapchunk_t) : bool :=
  sz + HDR + ALIGNMENT <=? size c.

(** Lines 80-88, at the selected chunk [c] read at address [chunk]. *)
Definition take_chunk (m : memory) (chunk : Z) (c : heapchunk_t) (sz : Z)
  : memory :=
  let m1 := <[chunk := set_inuse c true]> m in
  if splits sz c then
    let new_chunk := chunk + HDR + sz in
    let m2 :=
      <[new_chunk := {| size := wrap32 (size c - sz - HDR);
                        inuse := false;
                        next := next c |}]> m1 in
    <[chunk := {| size := sz; inuse := true; next := new_chunk |}]> m2
  else m1.

(** Lines 78-93: the first-fit scan. *)
Fixpoint alloc_loop (fuel : nat) (m : memory) (chunk : Z) (sz : Z)
  : option (memory * Z) :=
  match fuel with
  | O => None
  | S fuel' =>
      if chunk =? NULL then Some (m, NULL)
      else
        match m !! chunk with
        | None => None
        | Some c =>
            if fits sz c then Some (take_chunk m chunk c sz, chunk + HDR)
            else alloc_loop fuel' m (next c) sz
        end
  end.

Definition heap_alloc (st : heap_state) (sz : Z) : option (heap_state * Z) :=
  match
    alloc_loop (walk_bound (mem st)) (mem st) (start (heap st)) (ALIGN sz)
  with
  | None => None
  | Some (m', p) => Some ({| heap := heap st; mem := m' |}, p)
  end.

(** ** [heap_free] *)

(** Lines 172-173: [current] absorbs its successor [n]. *)
Definition absorb (c n : heapchunk_t) : heapchunk_t :=
  {| size := wrap32 (size c + (HDR + size n));
     inuse := inuse c;
     next := next n |}.

(** Lines 169-176: the coalescing walk. *)
Fixpoint coalesce_loop (fuel : nat) (m : memory) (current : Z)
  : option memory :=
  match fuel with
  | O => None
  | S fuel' =>
      if current =? NULL then Some m
      else
        match m !! current with
        | None => None
        | Some c =>
            if negb (inuse c) && negb (next c =? NULL) then
              match m !! next c with
              | None => None
              | Some n =>
                  if negb (inuse n) then
                    coalesce_loop fuel' (<[current := absorb c n]> m) (next n)
                  else coalesce_loop fuel' m (next c)
              end
            else coalesce_loop fuel' m (next c)
        end
  end.

(** Lines 178-185: [avail] is summed again over the free chunks. *)
Fixpoint avail_loop (fuel : nat) (m : memory) (current : Z) (acc : Z)
  : option Z :=
  match fuel with
  | O => None
  | S fuel' =>
      if current =? NULL then Some acc
      else
        match m !! current with
        | None => None
        | Some c =>
            avail_loop fuel' m (next c)
              (if inuse c then acc else wrap32 (acc + size c))
        end
  end.

Definition heap_free (st : heap_state) (ptr : Z) : option heap_state :=
  if ptr =? NULL then Some st
  else
    let chunk := ptr - HDR in
    match mem st !! chunk with
    | None => None
    | Some c =>
        let m1 := <[chunk := set_inuse c false]> (mem st) in
        match coalesce_loop (walk_bound m1) m1 (start (heap st)) with
        | None => None
        | Some m2 =>
            match avail_loop (walk_bound m2) m2 (start (heap st)) 0 with
            | None => None
            | Some a =>
                Some {| heap := {| start := start (heap st); avail := a |};
                        mem := m2 |}
            end
        end
    end.

(** ** [heap_init] and [heap_sizeof] *)

(** [m] is the content of the span before initialisation. *)
Definition heap_init (m : memory) (start_addr : Z) (sz : Z) : heap_state :=
  {| heap := {| start := start_addr; avail := wrap32 (sz - HDR) |};
     mem := <[start_addr := {| size := wrap32 (sz - HDR);
                               inuse := false;
                               next := NULL |}]> m |}.

Definition heap_sizeof (m : memory) (ptr : Z) : option Z :=
  if ptr =? NULL then Some 0
  else
    match m !! (ptr - HDR) with
    | None => None
    | Some c => Some (size c)
    end.

(** ** Reading the chain off the store *)

(** The chain that starts at [p], as the list of its headers with their
    addresses, in chain order. *)
Definition chunks := list (Z * heapchunk_t).

Fixpoint chain (m : memory) (p : Z) (l : chunks) : Prop :=
  match l with
  | [] => p = NULL
  | (a, c) :: l' => p = a ∧ a ≠ NULL ∧ m !! a = Some c ∧ chain m (next c) l'
  end.

(** Executable reading of the chain, for concrete stores. *)
Fixpoint read_chain (fuel : nat) (m : memory) (p : Z) : option chunks :=
  match fuel with
  | O => None
  | S fuel' =>
      if p =? NULL then Some []
      else
        match m !! p with
        | None => None
        | Some c =>
            match read_chain fuel' m (next c) with
            | None => None
            | Some l => Some ((p, c) :: l)
            end
        end
  end.

Definition chain_of (st : heap_state) (l : chunks) : Prop :=
  chain (mem st) (start (heap st)) l.

Definition heap_chain (st : heap_state) : option chunks :=
  read_chain (walk_bound (mem st)) (mem st) (start (heap st)).

(** The chunks of [l] lie back to back from address [p] on: each header
    sits exactly [HDR + size] bytes after the previous one.  Sizes are
    [uint32_t] values. *)
Fixpoint tiles (p : Z) (l : chunks) : Prop :=
  match l with
  | [] => True
  | (a, c) :: l' =>
      a = p ∧ 0 <= size c < 2 ^ 32 ∧ tiles (p + HDR + size c) l'
  end.

(** Bytes covered by the chunks of [l], headers included. *)
Fixpoint extent (l : chunks) : Z :=
  match l with
  | [] => 0
  | (_, c) :: l' => HDR + size c + extent l'
  end.

(** Sum of the payload sizes of the free chunks of [l]. *)
Fixpoint free_total (l : chunks) : Z :=
  match l with
  | [] => 0
  | (_, c) :: l' => (if inuse c then 0 else size c) + free_total l'
  end.

(** Some chunk of [l] and its successor are both free. *)
Fixpoint adjacent_free (l : chunks) : bool :=
  match l with
  | [] => false
  | (_, c) :: l' =>
      match l' with
      | [] => false
      | (_, d) :: _ => (negb (inuse c) && negb (inuse d)) || adjacent_free l'
      end
  end.

(** [l] represents the heap [st]: the chain read from [start] is [l], its
    chunks tile the span from [start] on, and the span is one that
    [heap_init] can have set up (its first payload size is a [uint32_t],
    so the span has fewer than [2^32 + HDR] bytes). *)
Definition heap_repr (st : heap_state) (l : chunks) : Prop :=
  0 < start (heap st) ∧
  chain_of st l ∧
  tiles (start (heap st)) l ∧
  extent l <= 2 ^ 32 + HDR - 1.

Definition heap_ok (st : heap_state) : Prop := ∃ l, heap_repr st l.

(** The invariant of the data model, in its own words: every chunk of the
    chain but the last has its [next] link at the byte that follows its
    header and payload. *)
Definition tiling (st : heap_state) : Prop :=
  ∃ l, chain_of st l ∧
    ∀ (i : nat) a c, l !! i = Some (a, c) → (S i < length l)%nat →
      next c = a + HDR + size c.

(** [a] is the address of a header of the chain of [st]. *)
Definition in_chain (st : heap_state) (a : Z) : Prop :=
  ∃ l, chain_of st l ∧ a ∈ l.*1.

(** The heaps a client can produce: [heap_init] on a span at a non-null
    address, then calls of [heap_alloc] and calls of [heap_free] on [NULL]
    or on the payload address of a chunk of the chain. *)
Inductive reachable : heap_state → Prop :=
  | reach_init m s sz :
      0 < s → reachable (heap_init m s sz)
  | reach_alloc st n st' p :
      reachable st → heap_alloc st n = Some (st', p) → reachable st'
  | reach_free st ptr st' :
      reachable st → ptr = NULL ∨ in_chain st (ptr - HDR) →
      heap_free st ptr = Some st' → reachable st'.

(** What lines 80-88 leave in the chain in place of the selected chunk. *)
Definition split_chunk (a : Z) (c : heapchunk_t) (sz : Z) : chunks :=
  if splits sz c then
    [(a, {| size := sz; inuse := true; next := a + HDR + sz |});
     (a + HDR + sz,
      {| size := size c - sz - HDR; inuse := false; next := next c |})]
  else [(a, set_inuse c true)].

(** What the walk of lines 169-176 makes of a chain: when a free chunk is
    followed by a free chunk it absorbs it, and the walk goes on from the
    chunk after the absorbed one. *)
Fixpoint coalesce_list (l : chunks) : chunks :=
  match l with
  | [] => []
  | (a, c) :: l' =>
      match l' with
      | [] => [(a, c)]
      | (_, d) :: l'' =>
          if negb (inuse c) && negb (inuse d)
          then (a, absorb c d) :: coalesce_list l''
          else (a, c) :: coalesce_list l'
      end
  end.

(** ** The demonstration of [main]: a span of 4096 bytes *)

Definition arena : heap_state := heap_init ∅ 65536 4096.

(** Runs [heap_alloc] and hands the new state and the address over. *)
Definition alloc_then {A} (st : heap_state) (n : Z)
    (k : heap_state → Z → option A) : option A :=
  match heap_alloc st n with
  | Some (st', p) => k st' p
  | None => None
  end.

Definition free_then {A} (st : heap_state) (p : Z)
    (k : heap_state → option A) : option A :=
  match heap_free st p with
  | Some st' => k st'
  | None => None
  end.

(** [heap_alloc] of 128, 256 and 512 bytes, as lines 263-265. *)
Definition three_blocks : option (heap_state * (Z * Z * Z)) :=
  alloc_then arena 128 (λ s1 p1,
  alloc_then s1 256 (λ s2 p2,
  alloc_then s2 512 (λ s3 p3, Some (s3, (p1, p2, p3))))).

(** The three blocks are freed in the order [x], [y], [z]. *)
Definition free_three (st : heap_state) (x y z : Z) : option heap_state :=
  free_then st x (λ s1, free_then s1 y (λ s2, free_then s2 z Some)).

(** The orders in which the three blocks can be freed. *)
Definition order_123 (ps : Z * Z * Z) : Z * Z * Z :=
  let '(p1, p2, p3) := ps in (p1, p2, p3).
Definition order_132 (ps : Z * Z * Z) : Z * Z * Z :=
  let '(p1, p2, p3) := ps in (p1, p3, p2).
Definition order_213 (ps : Z * Z * Z) : Z * Z * Z :=
  let '(p1, p2, p3) := ps in (p2, p1, p3).
Definition order_231 (ps : Z * Z * Z) : Z * Z * Z :=
  let '(p1, p2, p3) := ps in (p2, p3, p1).
Definition order_312 (ps : Z * Z * Z) : Z * Z * Z :=
  let '(p1, p2, p3) := ps in (p3, p1, p2).
Definition order_321 (ps : Z * Z * Z) : Z * Z * Z :=
  let '(p1, p2, p3) := ps in (p3, p2, p1).

(** The heap once the three blocks have been allocated and freed again. *)
Definition demo_after_frees (order : Z * Z * Z → Z * Z * Z)
  : option heap_state :=
  match three_blocks with
  | Some (s3, ps) => let '(x, y, z) := order ps in free_three s3 x y z
  | None => None
  end.

(** The address that a request of [n] bytes gets after that. *)
Definition demo_refill (order : Z * Z * Z → Z * Z * Z) (n : Z) : option Z :=
  match demo_after_frees order with
  | Some s6 =>
      match heap_alloc s6 n with
      | Some (_, p) => Some p
      | None => None
      end
  | None => None
  end.

Definition refill_fails (order : Z * Z * Z → Z * Z * Z) (n : Z) : bool :=
  match demo_refill order n with
  | Some p => p =? NULL
  | None => false
  end.

(** The arena after [heap_alloc] of 128 bytes. *)
Definition one_block_chain : chunks :=
  [(65536, {| size := 128; inuse := true; next := 65680 |});
   (65680, {| size := 3936; inuse := false; next := 0 |})].

Definition one_block : heap_state :=
  {| heap := {| start := 65536; avail := 4080 |};
     mem := list_to_map one_block_chain |}.

(** The arena after [heap_alloc] of 0xFFFFFFFF bytes. *)
Definition wrapped_chain : chunks :=
  [(65536, {| size := 0; inuse := true; next := 65552 |});
   (65552, {| size := 4064; inuse := false; next := 0 |})].

Definition wrapped_block : heap_state :=
  {| heap := {| start := 65536; avail := 4080 |};
     mem := list_to_map wrapped_chain |}.

(** The chain that the demonstration of [main] ends with. *)
Definition demo_final_chain : chunks :=
  [(65536, {| size := 928; inuse := false; next := 66480 |});
   (66480, {| size := 3136; inuse := false; next := 0 |})].

(** A heap with a loose fit early in the chain and a tight fit later. *)
Definition fragmented_chain : chunks :=
  [(1000, {| size := 104; inuse := true; next := 1120 |});
   (1120, {| size := 512; inuse := false; next := 1648 |});
   (1648, {| size := 8; inuse := true; next := 1672 |});
   (1672, {| size := 256; inuse := false; next := 1944 |});
   (1944, {| size := 8; inuse := true; next := 0 |})].

Definition fragmented : heap_state :=
  {| heap := {| start := 1000; avail := 768 |};
     mem := list_to_map fragmented_chain |}.

(** ** [heap_realloc] *)

(** [heap_realloc] takes no heap descriptor: it reads the header in front
    of [ptr] and otherwise talks to the C library.  Its calls to the
    library are recorded in the order in which they are made. *)
Inductive libc_call : Type :=
  | Malloc (sz : Z)
  | Free (ptr : Z)
  | Memcpy (dst src len : Z).

(** Conversion of an integer to the 64-bit [size_t]. *)
Definition wrap64 (z : Z) : Z := z mod 2 ^ 64.

(** The macro [ALIGN] at type [size_t] (line 118): the mask [~7] is the
    [int] -8 converted to [size_t]. *)
Definition ALIGN64 (sz : Z) : Z :=
  Z.land (wrap64 (sz + (ALIGNMENT - 1))) (wrap64 (Z.lnot (ALIGNMENT - 1))).

(** Lines 110-131.  [malloc_ret] is what [malloc] answers if it is called;
    the result is the returned pointer with the calls made. *)
Definition heap_realloc (m : memory) (ptr sz : Z) (malloc_ret : Z)
  : option (Z * list libc_call) :=
  if ptr =? NULL then Some (malloc_ret, [Malloc sz])
  else if sz =? 0 then Some (NULL, [Free ptr])
  else
    let sz' := ALIGN64 sz in
    match m !! (ptr - HDR) with
    | None => None
    | Some chunk =>
        if sz' <=? size chunk then Some (ptr, [])
        else if malloc_ret =? NULL then Some (NULL, [Malloc sz'])
        else
          Some (malloc_ret,
                [Malloc sz'; Memcpy malloc_ret ptr (size chunk); Free ptr])
    end.

(** Three chunks in a row of [l] are free. *)
Fixpoint free_run3 (l : chunks) : bool :=
  match l with
  | [] => false
  | (_, c) :: l' =>
      match l' with
      | [] => false
      | (_, d) :: l'' =>
          match l'' with
          | [] => false
          | (_, e) :: _ =>
              (negb (inuse c) && negb (inuse d) && negb (inuse e))
              || free_run3 l'
          end
      end
  end.

(** ** [heap_info] *)

Section heap_info.

(** The text that [%p] produces is implementation-defined. *)
Variable show_ptr : Z → string.

(** The text of [%u]: the decimal digits of the value. *)
Definition show_uint (z : Z) : string :=
  DecimalString.NilZero.string_of_uint (N.to_uint (Z.to_N z)).

Definition newline : string := String (Ascii.ascii_of_nat 10) EmptyString.

(** Line 240: what [sprintf] writes for one chunk. *)
Definition chunk_line (x : Z * heapchunk_t) : string :=
  "Chunk: " +:+ show_ptr x.1 +:+ ", size: " +:+ show_uint (size x.2)
  +:+ ", inuse: " +:+ (if inuse x.2 then "1" else "0") +:+ newline.

Fixpoint chunk_lines (l : chunks) : string :=
  match l with
  | [] => EmptyString
  | x :: l' => chunk_line x +:+ chunk_lines l'
  end.

(** Lines 236-242: everything that is written, in order. *)
Definition heap_info_text (st : heap_state) (l : chunks) : string :=
  "Heap start: " +:+ show_ptr (start (heap st)) +:+ newline
  +:+ "Available memory: " +:+ show_uint (avail (heap st)) +:+ " bytes"
  +:+ newline +:+ chunk_lines l.

(** [static char buffer[1024]] *)
Definition INFO_BUFFER : Z := 1024.

(** Lines 233-244.  The text and its terminating zero byte are written to
    [buffer] without a bound; writing past its end is a fault ([None]). *)
Definition heap_info (st : heap_state) : option string :=
  match heap_chain st with
  | None => None
  | Some l =>
      let text := heap_info_text st l in
      if Z.of_nat (String.length text) + 1 <=? INFO_BUFFER
      then Some text
      else None
  end.

End heap_info.

(** [k] calls of [heap_alloc] for [n] bytes each. *)
Fixpoint alloc_many (k : nat) (st : heap_state) (n : Z) : option heap_state :=
  match k with
  | O => Some st
  | S k' =>
      match heap_alloc st n with
      | Some (st', _) => alloc_many k' st' n
      | None => None
      end
  end.

(** * Proofs *)

(** ** The alignment macro *)

Lemma wrap32_range z : 0 <= wrap32 z < 2 ^ 32.
Proof. unfold wrap32. apply Z.mod_pos_bound. lia. Qed.

Lemma wrap32_small z : 0 <= z < 2 ^ 32 → wrap32 z = z.
Proof. intros H. unfold wrap32. apply Z.mod_small. exact H. Qed.

(** Masking with 0xFFFFFFF8 clears the three low bits of a 32-bit value. *)
Lemma mask_low_bits x : 0 <= x < 2 ^ 32 → Z.land x 4294967288 = 8 * (x / 8).
Proof.
  intros Hx.
  replace 4294967288 with (Z.ldiff (Z.ones 32) (Z.ones 3)) by reflexivity.
  transitivity (Z.ldiff (Z.land x (Z.ones 32)) (Z.ones 3)).
  - apply Z.bits_inj'. intros i Hi.
    rewrite Z.land_spec, !Z.ldiff_spec, Z.land_spec.
    destruct (Z.testbit x i), (Z.testbit (Z.ones 32) i),
      (Z.testbit (Z.ones 3) i); reflexivity.
  - rewrite Z.land_ones by lia. rewrite (Z.mod_small x) by lia.
    rewrite Z.ldiff_ones_r by lia.
    rewrite Z.shiftr_div_pow2, Z.shiftl_mul_pow2 by lia.
    change (2 ^ 3) with 8. lia.
Qed.

Lemma ALIGN_eq n : ALIGN n = 8 * (wrap32 (n + 7) / 8).
Proof.
  unfold ALIGN. change (ALIGNMENT - 1) with 7.
  change (wrap32 (Z.lnot 7)) with 4294967288.
  apply mask_low_bits, wrap32_range.
Qed.

Lemma ALIGN_range n : 0 <= ALIGN n < 2 ^ 32.
Proof.
  rewrite ALIGN_eq. pose proof (wrap32_range (n + 7)) as H.
  pose proof (Z.mul_div_le (wrap32 (n + 7)) 8 ltac:(lia)).
  pose proof (Z.div_pos (wrap32 (n + 7)) 8 ltac:(lia) ltac:(lia)). lia.
Qed.

(** Below the wrap-around the macro rounds up to the next multiple of 8. *)
Lemma ALIGN_round_up n :
  0 <= n <= 2 ^ 32 - 8 → n <= ALIGN n < n + 8 ∧ ALIGN n mod 8 = 0.
Proof.
  intros Hn. rewrite ALIGN_eq, wrap32_small by lia.
  pose proof (Z.div_mod (n + 7) 8 ltac:(lia)).
  pose proof (Z.mod_pos_bound (n + 7) 8 ltac:(lia)).
  split; [lia|]. rewrite Z.mul_comm. apply Z.mod_mul. lia.
Qed.

(** Above it the sum [size + 7] wraps and the macro yields 0. *)
Lemma ALIGN_wraps n : 2 ^ 32 - 8 < n < 2 ^ 32 → ALIGN n = 0.
Proof.
  intros Hn. rewrite ALIGN_eq. unfold wrap32.
  replace (n + 7) with ((n + 7 - 2 ^ 32) + 1 * 2 ^ 32) by lia.
  rewrite Z.mod_add by lia. rewrite Z.mod_small by lia.
  rewrite Z.div_small by lia. reflexivity.
Qed.

(** ** The chain as a list *)

Section chain_facts.
Context (m : memory).

Lemma chain_null l : chain m NULL l → l = [].
Proof.
  destruct l as [|[a c] l]; [reflexivity|].
  simpl. intros (<- & Hne & _). contradiction.
Qed.

(** A store determines the chain that hangs from an address. *)
Lemma chain_functional l1 : ∀ l2 p, chain m p l1 → chain m p l2 → l1 = l2.
Proof.
  induction l1 as [|[a c] l1 IH]; intros [|[b d] l2] p; simpl.
  - reflexivity.
  - intros -> (<- & Hne & _). contradiction.
  - intros (-> & Hne & _) ->. contradiction.
  - intros (-> & _ & Hc & Hl1) (<- & _ & Hd & Hl2).
    assert (c = d) as <- by congruence.
    f_equal. eapply IH; eassumption.
Qed.

(** The chain from a header that occurs in a chain is a suffix of it. *)
Lemma chain_from_member a l :
  ∀ p, chain m p l → a ∈ l.*1 →
    ∃ l1 c l2, l = l1 ++ (a, c) :: l2 ∧ chain m a ((a, c) :: l2).
Proof.
  induction l as [|[b d] l IH]; intros p Hch Hin; simpl in *.
  - apply elem_of_nil in Hin. contradiction.
  - destruct Hch as (-> & Hne & Hd & Hl).
    destruct (decide (a = b)) as [->|Hab].
    + exists [], d, l. simpl. auto.
    + apply elem_of_cons in Hin as [?|Hin]; [contradiction|].
      destruct (IH _ Hl Hin) as (l1 & c & l2 & -> & Hsuf).
      exists ((b, d) :: l1), c, l2. split; [reflexivity | exact Hsuf].
Qed.

(** No header occurs twice: the chain ends, so it has no cycle. *)
Lemma chain_NoDup l : ∀ p, chain m p l → NoDup l.*1.
Proof.
  induction l as [|[a c] l IH]; intros p Hch; simpl.
  - constructor.
  - pose proof Hch as (-> & Hne & Hc & Hl). constructor; [|eauto].
    intros Hin.
    destruct (chain_from_member _ _ _ Hl Hin) as (l1 & c' & l2 & -> & Hsuf).
    pose proof (chain_functional _ _ _ Hch Hsuf) as Heq.
    apply (f_equal length) in Heq. simpl in Heq.
    rewrite length_app in Heq. simpl in Heq. lia.
Qed.

Lemma chain_in_store l :
  ∀ p, chain m p l → ∀ a, a ∈ l.*1 → is_Some (m !! a).
Proof.
  induction l as [|[b d] l IH]; intros p Hch a Hin; simpl in *.
  - apply elem_of_nil in Hin. contradiction.
  - destruct Hch as (-> & Hne & Hd & Hl).
    apply elem_of_cons in Hin as [->|Hin]; [eauto | eauto].
Qed.

(** Hence the walks of a chain end within [walk_bound] steps. *)
Lemma chain_length l p : chain m p l → (length l < walk_bound m)%nat.
Proof.
  intros Hch. unfold walk_bound.
  assert (length l.*1 ≤ length (map_to_list m).*1)%nat as Hle.
  { apply submseteq_length, NoDup_submseteq.
    - eapply chain_NoDup, Hch.
    - intros a Hin.
      destruct (chain_in_store _ _ Hch a Hin) as [c Hc].
      apply list_elem_of_fmap. exists (a, c). split; [reflexivity|].
      apply elem_of_map_to_list. exact Hc. }
  rewrite !length_fmap, length_map_to_list in Hle. lia.
Qed.
End chain_facts.

(** Writing a header that is not on the chain leaves the chain as it is. *)
Lemma chain_insert_fresh (m : memory) a x l :
  ∀ p, a ∉ l.*1 → chain m p l → chain (<[a := x]> m) p l.
Proof.
  induction l as [|[b d] l IH]; intros p Hnin Hch; simpl in *.
  - exact Hch.
  - destruct Hch as (-> & Hne & Hd & Hl).
    apply not_elem_of_cons in Hnin as [Hab Hnin].
    repeat split; [exact Hne | | apply IH; assumption].
    rewrite lookup_insert_ne by (simpl in Hab; congruence). exact Hd.
Qed.

Lemma chain_suffix (m : memory) l1 l2 :
  ∀ p, chain m p (l1 ++ l2) → ∃ q, chain m q l2.
Proof.
  induction l1 as [|[b d] l1 IH]; intros p Hch; simpl in *.
  - eauto.
  - destruct Hch as (_ & _ & _ & Hl). eauto.
Qed.

(** Rewriting one header of the chain: the part before it is kept, the
    part after it is whatever hangs from the new [next] field. *)
Lemma chain_replace (m : memory) a c c' l1 l2 l2' :
  ∀ p, chain m p (l1 ++ (a, c) :: l2) →
    chain (<[a := c']> m) (next c') l2' →
    chain (<[a := c']> m) p (l1 ++ (a, c') :: l2').
Proof.
  intros p Hch Htail.
  pose proof (chain_NoDup _ _ _ Hch) as Hnd.
  revert p Hch Hnd.
  induction l1 as [|[b d] l1 IH]; intros p Hch Hnd; simpl in *.
  - destruct Hch as (-> & Hne & _).
    repeat split; [exact Hne | apply lookup_insert_eq | exact Htail].
  - destruct Hch as (-> & Hne & Hd & Hl).
    apply NoDup_cons in Hnd as [Hnin Hnd].
    repeat split; [exact Hne | | apply IH; assumption].
    rewrite lookup_insert_ne; [exact Hd|].
    intros ->. apply Hnin. rewrite fmap_app. apply elem_of_app. right.
    simpl. apply elem_of_cons. left. reflexivity.
Qed.

(** Writing a header of the chain without touching its [next] field
    replaces it in the chain. *)
Lemma chain_update (m : memory) a c c' l1 l2 :
  ∀ p, chain m p (l1 ++ (a, c) :: l2) → next c' = next c →
    chain (<[a := c']> m) p (l1 ++ (a, c') :: l2).
Proof.
  intros p Hch Hnext.
  eapply chain_replace; [exact Hch|].
  pose proof (chain_NoDup _ _ _ Hch) as Hnd.
  rewrite fmap_app in Hnd. apply NoDup_app in Hnd as (_ & _ & Hnd).
  simpl in Hnd. apply NoDup_cons in Hnd as [Hnin _].
  destruct (chain_suffix _ _ _ _ Hch) as (q & _ & _ & Hc & Hl).
  rewrite Hnext. apply chain_insert_fresh; assumption.
Qed.

(** A new header [b] is linked in right after the header [a]. *)
Lemma chain_splice (m : memory) a c c1 b c2 l1 l2 :
  ∀ p, chain m p (l1 ++ (a, c) :: l2) →
    b ∉ (l1 ++ (a, c) :: l2).*1 → b ≠ NULL →
    next c1 = b → next c2 = next c →
    chain (<[a := c1]> (<[b := c2]> m)) p (l1 ++ (a, c1) :: (b, c2) :: l2).
Proof.
  intros p Hch Hb Hb0 Hn1 Hn2.
  pose proof (chain_NoDup _ _ _ Hch) as Hnd.
  rewrite fmap_app in Hnd. apply NoDup_app in Hnd as (_ & _ & Hnd).
  simpl in Hnd. apply NoDup_cons in Hnd as [Ha _].
  destruct (chain_suffix _ _ _ _ Hch) as (q & _ & _ & Hc & Hl).
  pose proof Hb as Hb'.
  rewrite fmap_app in Hb. apply not_elem_of_app in Hb as [_ Hb].
  simpl in Hb. apply not_elem_of_cons in Hb as [Hba Hb].
  eapply chain_replace.
  - apply chain_insert_fresh; [exact Hb' | exact Hch].
  - simpl. rewrite Hn1. repeat split; [exact Hb0 | |].
    + rewrite lookup_insert_ne by congruence. apply lookup_insert_eq.
    + rewrite Hn2. apply chain_insert_fresh; [exact Ha|].
      apply chain_insert_fresh; assumption.
Qed.

(** ** Tiling of a list of chunks *)

Lemma extent_app l1 l2 : extent (l1 ++ l2) = extent l1 + extent l2.
Proof.
  induction l1 as [|[a c] l1 IH]; simpl; [reflexivity|]. rewrite IH. lia.
Qed.

Lemma tiles_app l1 l2 :
  ∀ p, tiles p (l1 ++ l2) ↔ tiles p l1 ∧ tiles (p + extent l1) l2.
Proof.
  induction l1 as [|[a c] l1 IH]; intros p; simpl.
  - rewrite Z.add_0_r. tauto.
  - rewrite IH.
    replace (p + HDR + size c + extent l1)
      with (p + (HDR + size c + extent l1)) by lia.
    tauto.
Qed.

Lemma tiles_extent_nonneg l : ∀ p, tiles p l → 0 <= extent l.
Proof.
  induction l as [|[a c] l IH]; intros p; simpl; [lia|].
  intros (_ & Hc & Hl). specialize (IH _ Hl). unfold HDR. lia.
Qed.

(** Every chunk of a tiled list lies within the bytes the list covers. *)
Lemma tiles_bounds l :
  ∀ p, tiles p l → ∀ a, a ∈ l.*1 → p <= a ∧ a + HDR <= p + extent l.
Proof.
  induction l as [|[b d] l IH]; intros p Ht a Hin; simpl in *.
  - apply elem_of_nil in Hin. contradiction.
  - destruct Ht as (-> & Hd & Hl).
    pose proof (tiles_extent_nonneg _ _ Hl).
    apply elem_of_cons in Hin as [->|Hin]; [unfold HDR; lia|].
    specialize (IH _ Hl _ Hin). unfold HDR in *. lia.
Qed.

(** In a tiled chain the [next] link of a chunk is the end of its payload. *)
Lemma chain_tiles_next (m : memory) l :
  ∀ p (i : nat) a c, chain m p l → tiles p l →
    l !! i = Some (a, c) → (S i < length l)%nat →
    next c = a + HDR + size c.
Proof.
  induction l as [|[b d] l IH]; intros p i a c Hch Ht Hi Hlen; simpl in *.
  - lia.
  - destruct Hch as (-> & Hne & Hd & Hl). destruct Ht as (_ & Hsz & Ht).
    destruct i as [|i]; simpl in Hi.
    + injection Hi as <- <-.
      destruct l as [|[e f] l]; simpl in *; [lia|].
      destruct Hl as (-> & _). destruct Ht as (-> & _). reflexivity.
    + destruct l as [|[e f] l]; [discriminate|].
      pose proof Hl as (Hnext & _). pose proof Ht as (Hadr & _).
      eapply (IH (next d) i a c); [exact Hl | | exact Hi | lia].
      assert (next d = b + HDR + size d) as Heq by congruence.
      rewrite Heq. exact Ht.
Qed.

(** ** [heap_alloc] over a chain *)

Section alloc_facts.
Context (m : memory) (sz : Z).

(** The scan stops at the first chunk that fits. *)
Lemma alloc_loop_hit a c l2 l1 :
  ∀ p fuel, chain m p (l1 ++ (a, c) :: l2) →
    Forall (λ x, fits sz x.2 = false) l1 → fits sz c = true →
    (length l1 < fuel)%nat →
    alloc_loop fuel m p sz = Some (take_chunk m a c sz, a + HDR).
Proof.
  induction l1 as [|[b d] l1 IH]; intros p fuel Hch Hno Hfit Hfuel;
    (destruct fuel as [|fuel]; [simpl in Hfuel; lia|]); simpl in *.
  - destruct Hch as (-> & Hne & Hc & _).
    apply Z.eqb_neq in Hne. rewrite Hne, Hc, Hfit. reflexivity.
  - destruct Hch as (-> & Hne & Hd & Hl).
    apply Forall_cons in Hno as [Hd' Hno]. simpl in Hd'.
    apply Z.eqb_neq in Hne. rewrite Hne, Hd, Hd'.
    apply IH; [assumption..|lia].
Qed.

(** When no chunk fits the scan reaches the end and nothing is written. *)
Lemma alloc_loop_miss l :
  ∀ p fuel, chain m p l → Forall (λ x, fits sz x.2 = false) l →
    (length l < fuel)%nat → alloc_loop fuel m p sz = Some (m, NULL).
Proof.
  induction l as [|[b d] l IH]; intros p fuel Hch Hno Hfuel;
    (destruct fuel as [|fuel]; [simpl in Hfuel; lia|]); simpl in *.
  - subst p. reflexivity.
  - destruct Hch as (-> & Hne & Hd & Hl).
    apply Forall_cons in Hno as [Hd' Hno]. simpl in Hd'.
    apply Z.eqb_neq in Hne. rewrite Hne, Hd, Hd'.
    apply IH; [assumption..|lia].
Qed.

(** A successful scan returns the payload address of a header it wrote. *)
Lemma alloc_loop_result fuel :
  ∀ p m' r, alloc_loop fuel m p sz = Some (m', r) → r ≠ NULL →
    ∃ a c, r = a + HDR ∧ m !! a = Some c ∧ fits sz c = true ∧
           m' = take_chunk m a c sz.
Proof.
  induction fuel as [|fuel IH]; intros p m' r Hrun Hr; simpl in Hrun;
    [discriminate|].
  destruct (p =? NULL); [injection Hrun as <- <-; contradiction|].
  destruct (m !! p) as [c|] eqn:Hc; [|discriminate].
  destruct (fits sz c) eqn:Hfit.
  - injection Hrun as <- <-. exists p, c. auto.
  - eapply IH; eassumption.
Qed.
End alloc_facts.

Lemma first_fit_cases sz (l : chunks) :
  Forall (λ x, fits sz x.2 = false) l ∨
  ∃ l1 a c l2, l = l1 ++ (a, c) :: l2 ∧
    Forall (λ x, fits sz x.2 = false) l1 ∧ fits sz c = true.
Proof.
  induction l as [|[a c] l IH].
  - left. constructor.
  - destruct (fits sz c) eqn:Hfit.
    + right. exists [], a, c, l. repeat split; [constructor | exact Hfit].
    + destruct IH as [IH|(l1 & b & d & l2 & -> & Hno & Hd)].
      * left. constructor; assumption.
      * right. exists ((a, c) :: l1), b, d, l2.
        repeat split; [constructor; assumption | exact Hd].
Qed.

Lemma heap_alloc_hit st n l1 a c l2 :
  chain_of st (l1 ++ (a, c) :: l2) →
  Forall (λ x, fits (ALIGN n) x.2 = false) l1 → fits (ALIGN n) c = true →
  heap_alloc st n =
    Some ({| heap := heap st; mem := take_chunk (mem st) a c (ALIGN n) |},
          a + HDR).
Proof.
  intros Hch Hno Hfit. unfold heap_alloc.
  rewrite (alloc_loop_hit _ _ a c l2 l1 _ _ Hch Hno Hfit); [reflexivity|].
  apply chain_length in Hch. rewrite length_app in Hch. simpl in Hch. lia.
Qed.

Lemma heap_alloc_miss st n l :
  chain_of st l → Forall (λ x, fits (ALIGN n) x.2 = false) l →
  heap_alloc st n = Some (st, NULL).
Proof.
  intros Hch Hno. unfold heap_alloc.
  rewrite (alloc_loop_miss _ _ l _ _ Hch Hno); [destruct st; reflexivity|].
  eapply chain_length, Hch.
Qed.

(** The chain after the selected chunk has been taken, split or whole. *)
Lemma take_chunk_repr (m : memory) p sz l1 a c l2 :
  0 < p → 0 <= sz →
  chain m p (l1 ++ (a, c) :: l2) → tiles p (l1 ++ (a, c) :: l2) →
  chain (take_chunk m a c sz) p (l1 ++ split_chunk a c sz ++ l2) ∧
  tiles p (l1 ++ split_chunk a c sz ++ l2) ∧
  extent (l1 ++ split_chunk a c sz ++ l2) = extent (l1 ++ (a, c) :: l2).
Proof.
  intros Hp Hsz Hch Ht.
  pose proof Ht as Ht'. apply tiles_app in Ht' as [Ht1 Ht2].
  simpl in Ht2. destruct Ht2 as (Ha & Hc & Ht2).
  unfold take_chunk, split_chunk. destruct (splits sz c) eqn:Hsp.
  - unfold splits in Hsp. apply Z.leb_le in Hsp.
    unfold HDR, ALIGNMENT in Hsp.
    assert (a + HDR + sz ∉ (l1 ++ (a, c) :: l2).*1) as Hfresh.
    { rewrite fmap_app. simpl. intros Hin.
      apply elem_of_app in Hin as [Hin|Hin].
      - apply (tiles_bounds _ _ Ht1) in Hin. unfold HDR in *. lia.
      - apply elem_of_cons in Hin as [Hin|Hin]; [unfold HDR in *; lia|].
        apply (tiles_bounds _ _ Ht2) in Hin. unfold HDR in *. lia. }
    pose proof (tiles_extent_nonneg _ _ Ht1) as Hext.
    assert (a + HDR + sz ≠ a) as Hne by (unfold HDR; lia).
    rewrite (insert_insert_ne _ (a + HDR + sz) a) by exact Hne.
    rewrite insert_insert_eq.
    rewrite wrap32_small by (unfold HDR; lia).
    split; [|split].
    + simpl. apply (chain_splice m a c); try reflexivity; try assumption.
      unfold NULL, HDR. lia.
    + subst a. apply tiles_app. split; [exact Ht1|]. simpl.
      repeat split; try assumption; try (unfold HDR; lia).
      replace (p + extent l1 + HDR + sz + HDR + (size c - sz - HDR))
        with (p + extent l1 + HDR + size c) by lia.
      exact Ht2.
    + rewrite !extent_app. simpl. lia.
  - split; [|split].
    + simpl. apply (chain_update m a c); [exact Hch | reflexivity].
    + subst a. apply tiles_app. split; [exact Ht1|]. simpl.
      repeat split; try assumption; lia.
    + rewrite !extent_app. simpl. lia.
Qed.

(** ** [heap_free] over a chain *)

Lemma coalesce_list_step a c b d (l : chunks) :
  coalesce_list ((a, c) :: (b, d) :: l) =
    if negb (inuse c) && negb (inuse d)
    then (a, absorb c d) :: coalesce_list l
    else (a, c) :: coalesce_list ((b, d) :: l).
Proof. reflexivity. Qed.

(** Induction that follows the walk: one chunk or two chunks at a time. *)
Lemma chunks_pair_ind (P : chunks → Prop) :
  P [] → (∀ x, P [x]) →
  (∀ x y l, P l → P (y :: l) → P (x :: y :: l)) →
  ∀ l, P l.
Proof.
  intros Hnil Hone Htwo l.
  enough (P l ∧ ∀ x, P (x :: l)) as [H _] by exact H.
  induction l as [|y l [IH1 IH2]]; split; auto.
Qed.

(** The coalescing walk of the store computes [coalesce_list] of the chain
    and writes to headers of the chain only. *)
Lemma coalesce_loop_spec fuel :
  ∀ l (m : memory) p, chain m p l → (length l < fuel)%nat →
    ∃ m', coalesce_loop fuel m p = Some m' ∧
      chain m' p (coalesce_list l) ∧
      ∀ x, x ∉ l.*1 → m' !! x = m !! x.
Proof.
  induction fuel as [|fuel IH]; intros l m p Hch Hlen; [lia|].
  pose proof (chain_NoDup _ _ _ Hch) as Hnd.
  destruct l as [|[a c] l].
  - simpl in Hch. subst p. exists m. simpl. auto.
  - pose proof Hch as (-> & Hne & Hc & Hl).
    simpl in Hnd. apply NoDup_cons in Hnd as [Ha Hnd].
    assert (∀ m', (∀ x, x ∉ l.*1 → m' !! x = m !! x) →
              chain m' (next c) (coalesce_list l) →
              chain m' a ((a, c) :: coalesce_list l) ∧
              ∀ x, x ∉ ((a, c) :: l).*1 → m' !! x = m !! x) as Hskip.
    { intros m' Hfr Hch'. split.
      - simpl. repeat split; [exact Hne | | exact Hch'].
        rewrite Hfr by exact Ha. exact Hc.
      - intros x Hx. simpl in Hx. apply not_elem_of_cons in Hx as [_ Hx].
        apply Hfr, Hx. }
    cbn [coalesce_loop]. apply Z.eqb_neq in Hne as Hne'. rewrite Hne', Hc.
    destruct l as [|[b d] l].
    + simpl in Hl. rewrite Hl. rewrite Z.eqb_refl, andb_false_r.
      destruct fuel as [|fuel]; [simpl in Hlen; lia|].
      exists m. simpl. rewrite Hl. repeat split; auto.
    + pose proof Hl as (Hb & Hbne & Hd & Hl2). subst b.
      assert (length ((next c, d) :: l) < fuel)%nat as Hlen'
        by (simpl in *; lia).
      rewrite coalesce_list_step.
      destruct (inuse c) eqn:Hic; cbn [negb andb].
      * destruct (IH _ _ _ Hl Hlen') as (m' & Hrun & Hch' & Hfr).
        exists m'. split; [exact Hrun|]. apply Hskip; assumption.
      * apply Z.eqb_neq in Hbne as Hbne'. rewrite Hbne'. cbn [negb].
        rewrite Hd. destruct (inuse d) eqn:Hid; cbn [negb].
        -- destruct (IH _ _ _ Hl Hlen') as (m' & Hrun & Hch' & Hfr).
           exists m'. split; [exact Hrun|]. apply Hskip; assumption.
        -- simpl in Hnd. apply NoDup_cons in Hnd as [Hbl Hnd].
           simpl in Ha. apply not_elem_of_cons in Ha as [Hab Hal].
           assert (chain (<[a := absorb c d]> m) (next d) l) as Hl2'
             by (apply chain_insert_fresh; assumption).
           assert (length l < fuel)%nat as Hlen2 by (simpl in *; lia).
           destruct (IH _ _ _ Hl2' Hlen2) as (m' & Hrun & Hch' & Hfr).
           exists m'. split; [exact Hrun|]. split.
           ++ simpl. repeat split; [exact Hne | | exact Hch'].
              rewrite Hfr by exact Hal. apply lookup_insert_eq.
           ++ intros x Hx. simpl in Hx.
              apply not_elem_of_cons in Hx as [Hxa Hx].
              apply not_elem_of_cons in Hx as [_ Hx].
              rewrite Hfr by exact Hx. apply lookup_insert_ne. congruence.
Qed.

(** On a span of fewer than [2^32 + HDR] bytes no absorbed size wraps, so
    the coalesced chain still tiles the same bytes. *)
Lemma tiles_coalesce (l : chunks) :
  ∀ p, tiles p l → extent l <= 2 ^ 32 + HDR - 1 →
    tiles p (coalesce_list l) ∧ extent (coalesce_list l) = extent l.
Proof.
  induction l as [| x | [a c] [b d] l IH1 IH2] using chunks_pair_ind;
    intros p Ht Hext.
  - simpl. auto.
  - destruct x as [a c]. simpl in *. auto.
  - rewrite coalesce_list_step.
    pose proof Ht as (Ha & Hc & Hb & Hd & Ht2).
    pose proof (tiles_extent_nonneg _ _ Ht2) as Hnn.
    assert (extent ((a, c) :: (b, d) :: l) =
            HDR + size c + (HDR + size d + extent l)) as Hex by reflexivity.
    destruct (negb (inuse c) && negb (inuse d)).
    + assert (extent l <= 2 ^ 32 + HDR - 1) as Hext2
        by (unfold HDR in *; lia).
      destruct (IH1 _ Ht2 Hext2) as [Ht' Hext'].
      assert (size (absorb c d) = size c + HDR + size d) as Hsz.
      { unfold absorb. simpl. rewrite wrap32_small; unfold HDR in *; lia. }
      rewrite Hex. cbn [tiles extent]. rewrite Hsz, Hext'. split; [|lia].
      repeat split; [exact Ha | unfold HDR in *; lia.. |].
      replace (p + HDR + (size c + HDR + size d))
        with (p + HDR + size c + HDR + size d) by lia.
      exact Ht'.
    + destruct Ht as (_ & _ & Ht).
      assert (extent ((b, d) :: l) <= 2 ^ 32 + HDR - 1) as Hext1
        by (cbn [extent]; unfold HDR in *; lia).
      destruct (IH2 _ Ht Hext1) as [Ht' Hext'].
      cbn [tiles extent]. rewrite Hext'. split; [|reflexivity].
      repeat split; try assumption; lia.
Qed.

Lemma free_total_bounds (l : chunks) :
  ∀ p, tiles p l →
    0 <= free_total l ∧ free_total l + HDR * Z.of_nat (length l) <= extent l.
Proof.
  induction l as [|[a c] l IH]; intros p Ht; simpl in *; [lia|].
  destruct Ht as (_ & Hc & Ht). specialize (IH _ Ht).
  destruct (inuse c); unfold HDR in *; lia.
Qed.

(** The second walk adds up the free payload, without wrap-around while
    the total stays below [2^32]. *)
Lemma avail_loop_spec (m : memory) (l : chunks) :
  ∀ fuel p q acc, chain m p l → tiles q l → (length l < fuel)%nat →
    0 <= acc → acc + free_total l < 2 ^ 32 →
    avail_loop fuel m p acc = Some (acc + free_total l).
Proof.
  induction l as [|[a c] l IH]; intros fuel p q acc Hch Ht Hlen Hacc Hsum;
    (destruct fuel as [|fuel]; [simpl in Hlen; lia|]); simpl in *.
  - subst p. simpl. f_equal. lia.
  - destruct Hch as (-> & Hne & Hc & Hl). destruct Ht as (_ & Hsz & Ht).
    apply Z.eqb_neq in Hne. rewrite Hne, Hc.
    pose proof (free_total_bounds _ _ Ht) as [Hft _].
    destruct (inuse c).
    + rewrite (IH fuel (next c) _ acc Hl Ht); [f_equal; lia | lia..].
    + rewrite wrap32_small by lia.
      rewrite (IH fuel (next c) _ (acc + size c) Hl Ht);
        [f_equal; lia | lia..].
Qed.

Lemma tiles_update (l1 l2 : chunks) a c c' :
  ∀ p, size c' = size c → tiles p (l1 ++ (a, c) :: l2) →
    tiles p (l1 ++ (a, c') :: l2) ∧
    extent (l1 ++ (a, c') :: l2) = extent (l1 ++ (a, c) :: l2).
Proof.
  intros p Hsz Ht. rewrite !extent_app. simpl. rewrite Hsz. split; [|lia].
  apply tiles_app in Ht as [Ht1 Ht2]. apply tiles_app. split; [exact Ht1|].
  simpl in *. rewrite Hsz. exact Ht2.
Qed.

(** ** The operations on represented heaps *)

Lemma heap_init_repr (m : memory) s sz :
  0 < s →
  heap_repr (heap_init m s sz)
    [(s, {| size := wrap32 (sz - HDR); inuse := false; next := NULL |})].
Proof.
  intros Hs. pose proof (wrap32_range (sz - HDR)) as Hw.
  unfold heap_repr, chain_of, heap_init. simpl.
  repeat split; try reflexivity; try lia.
  - unfold NULL. lia.
  - apply lookup_insert_eq.
Qed.

Lemma heap_alloc_repr_hit st n l1 a c l2 :
  heap_repr st (l1 ++ (a, c) :: l2) →
  Forall (λ x, fits (ALIGN n) x.2 = false) l1 → fits (ALIGN n) c = true →
  ∃ st', heap_alloc st n = Some (st', a + HDR) ∧ heap st' = heap st ∧
    mem st' = take_chunk (mem st) a c (ALIGN n) ∧
    heap_repr st' (l1 ++ split_chunk a c (ALIGN n) ++ l2).
Proof.
  intros (Hp & Hch & Ht & Hext) Hno Hfit.
  eexists. split; [apply (heap_alloc_hit _ _ _ _ _ _ Hch Hno Hfit)|].
  split; [reflexivity|]. split; [reflexivity|].
  pose proof (ALIGN_range n) as [Hn _].
  destruct (take_chunk_repr _ _ _ _ _ _ _ Hp Hn Hch Ht) as (Hch' & Ht' & He).
  unfold heap_repr, chain_of. simpl. rewrite He. auto.
Qed.

(** [heap_alloc] returns on every represented heap and keeps it represented. *)
Lemma heap_alloc_ok st n :
  heap_ok st → ∃ st' p, heap_alloc st n = Some (st', p) ∧ heap_ok st'.
Proof.
  intros [l Hl].
  destruct (first_fit_cases (ALIGN n) l)
    as [Hno|(l1 & a & c & l2 & -> & Hno & Hfit)].
  - exists st, NULL. split; [|exists l; exact Hl].
    destruct Hl as (_ & Hch & _). eapply heap_alloc_miss; eassumption.
  - destruct (heap_alloc_repr_hit _ _ _ _ _ _ Hl Hno Hfit)
      as (st' & Hrun & _ & _ & Hrep).
    exists st', (a + HDR). split; [exact Hrun|]. eexists. exact Hrep.
Qed.

(** [heap_free] of the payload address of a chunk of the chain: the chunk
    is marked free, the chain is coalesced by one walk, and [avail] is the
    free payload of the result. *)
Lemma heap_free_repr st l1 a c l2 :
  heap_repr st (l1 ++ (a, c) :: l2) →
  ∃ st', heap_free st (a + HDR) = Some st' ∧
    start (heap st') = start (heap st) ∧
    heap_repr st' (coalesce_list (l1 ++ (a, set_inuse c false) :: l2)) ∧
    avail (heap st') =
      free_total (coalesce_list (l1 ++ (a, set_inuse c false) :: l2)).
Proof.
  intros (Hp & Hch & Ht & Hext). unfold chain_of in Hch.
  assert (a ∈ (l1 ++ (a, c) :: l2).*1) as Hin.
  { rewrite fmap_app. apply elem_of_app. right. simpl. apply elem_of_cons.
    left. reflexivity. }
  pose proof (tiles_bounds _ _ Ht _ Hin) as [Hpa _].
  destruct (chain_suffix _ _ _ _ Hch) as (q & _ & _ & Hc & _).
  set (lm := l1 ++ (a, set_inuse c false) :: l2).
  set (m1 := <[a := set_inuse c false]> (mem st)).
  assert (chain m1 (start (heap st)) lm) as Hch1
    by (apply (chain_update _ a c); [exact Hch | reflexivity]).
  destruct (tiles_update l1 l2 a c (set_inuse c false) _ eq_refl Ht)
    as [Ht1 He1].
  fold lm in Ht1, He1.
  destruct (coalesce_loop_spec (walk_bound m1) lm m1 _ Hch1
              (chain_length _ _ _ Hch1)) as (m2 & Hrun & Hch2 & _).
  destruct (tiles_coalesce lm _ Ht1 ltac:(lia)) as [Ht2 He2].
  pose proof (free_total_bounds _ _ Ht2) as [Hf0 Hf1].
  assert (0 < Z.of_nat (length (coalesce_list lm))) as Hlen.
  { destruct (coalesce_list lm) as [|x l'] eqn:Hl'; [|simpl; lia].
    simpl in Hch2. unfold NULL in Hch2. lia. }
  assert (avail_loop (walk_bound m2) m2 (start (heap st)) 0 =
          Some (0 + free_total (coalesce_list lm))) as Hav.
  { eapply avail_loop_spec; [exact Hch2 | exact Ht2 | | lia |].
    - eapply chain_length, Hch2.
    - unfold HDR in *. lia. }
  eexists. split.
  - unfold heap_free.
    assert ((a + HDR =? NULL) = false) as ->
      by (apply Z.eqb_neq; unfold NULL, HDR; lia).
    replace (a + HDR - HDR) with a by lia.
    rewrite Hc. cbv zeta. fold m1. rewrite Hrun, Hav. reflexivity.
  - simpl. split; [reflexivity|]. split; [|lia].
    unfold heap_repr, chain_of. simpl. repeat split; try assumption. lia.
Qed.

Lemma heap_free_ok st ptr :
  heap_ok st → ptr = NULL ∨ in_chain st (ptr - HDR) →
  ∃ st', heap_free st ptr = Some st' ∧ heap_ok st'.
Proof.
  intros [l Hl] [->|(l' & Hch' & Hin)].
  - exists st. split; [reflexivity | exists l; exact Hl].
  - pose proof Hl as (_ & Hch & _).
    assert (l' = l) as -> by (eapply chain_functional; eassumption).
    destruct (chain_from_member _ _ _ _ Hch Hin) as (l1 & c & l2 & -> & _).
    destruct (heap_free_repr _ _ _ _ _ Hl) as (st' & Hrun & _ & Hrep & _).
    exists st'. replace (ptr - HDR + HDR) with ptr in Hrun by lia.
    split; [exact Hrun | eexists; exact Hrep].
Qed.

(** Every heap a client can produce is represented. *)
Lemma reachable_ok st : reachable st → heap_ok st.
Proof.
  induction 1 as [m s sz Hs | st n st' p _ IH Hrun | st ptr st' _ IH Hp Hrun].
  - eexists. apply heap_init_repr, Hs.
  - destruct (heap_alloc_ok st n IH) as (st'' & p' & Hrun' & Hok).
    congruence.
  - destruct (heap_free_ok st ptr IH Hp) as (st'' & Hrun' & Hok).
    congruence.
Qed.

(** ** Concrete heaps *)

Lemma read_chain_sound fuel :
  ∀ (m : memory) p l, read_chain fuel m p = Some l → chain m p l.
Proof.
  induction fuel as [|fuel IH]; intros m p l Hrun; simpl in Hrun;
    [discriminate|].
  destruct (p =? NULL) eqn:Hp.
  - injection Hrun as <-. simpl. apply Z.eqb_eq, Hp.
  - destruct (m !! p) as [c|] eqn:Hc; [|discriminate].
    destruct (read_chain fuel m (next c)) as [l'|] eqn:Hl; [|discriminate].
    injection Hrun as <-. simpl. apply Z.eqb_neq in Hp. auto.
Qed.

Lemma heap_chain_sound st l : heap_chain st = Some l → chain_of st l.
Proof. apply read_chain_sound. Qed.

Example arena_alloc_128 : heap_alloc arena 128 = Some (one_block, 65552).
Proof. vm_compute. reflexivity. Qed.

Example one_block_is_chain : heap_chain one_block = Some one_block_chain.
Proof. vm_compute. reflexivity. Qed.

Example fragmented_is_chain : heap_chain fragmented = Some fragmented_chain.
Proof. vm_compute. reflexivity. Qed.

Lemma fits_false_iff sz c :
  fits sz c = false ↔ inuse c = true ∨ size c < sz.
Proof.
  unfold fits. destruct (inuse c); simpl.
  - split; auto.
  - rewrite Z.leb_gt. split; [auto | intros [?|?]; [discriminate | assumption]].
Qed.

Lemma fits_true_iff sz c :
  fits sz c = true ↔ inuse c = false ∧ sz <= size c.
Proof.
  unfold fits. destruct (inuse c); simpl.
  - split; [discriminate | intros [? _]; discriminate].
  - rewrite Z.leb_le. tauto.
Qed.

Lemma no_fit_Forall sz (l : chunks) :
  Forall (λ x, inuse x.2 = true ∨ size x.2 < sz) l →
  Forall (λ x, fits sz x.2 = false) l.
Proof.
  intros H. eapply Forall_impl; [exact H|]. intros x. apply fits_false_iff.
Qed.

(** * The properties of the specification *)

(** C1. The tiling invariant holds throughout: in every heap that
    [heap_init] has set up and that calls of [heap_alloc] and [heap_free]
    have then transformed, each chunk of the chain but the last has its
    [next] link exactly at the byte that follows its header and payload.
    On such a heap [heap_alloc] and [heap_free] return, so the heaps they
    produce are again of this kind. *)
Theorem tiling_holds_throughout st :
  reachable st →
  tiling st ∧
  (∀ n, ∃ st' p, heap_alloc st n = Some (st', p) ∧ reachable st') ∧
  (∀ ptr, ptr = NULL ∨ in_chain st (ptr - HDR) →
     ∃ st', heap_free st ptr = Some st' ∧ reachable st').
Proof.
  intros Hr. pose proof (reachable_ok _ Hr) as Hok. split; [|split].
  - destruct Hok as (l & Hp & Hch & Ht & _).
    exists l. split; [exact Hch|]. intros i a c Hi Hlen.
    eapply chain_tiles_next; eassumption.
  - intros n. destruct (heap_alloc_ok st n Hok) as (st' & p & Hrun & _).
    exists st', p. split; [exact Hrun|]. eapply reach_alloc; eassumption.
  - intros ptr Hptr.
    destruct (heap_free_ok st ptr Hok Hptr) as (st' & Hrun & _).
    exists st'. split; [exact Hrun|]. eapply reach_free; eassumption.
Qed.

Lemma tiling_holds_throughout_witness :
  reachable one_block ∧ tiling one_block.
Proof.
  assert (reachable one_block) as Hr.
  { apply (reach_alloc arena 128 one_block 65552).
    - apply reach_init. lia.
    - vm_compute. reflexivity. }
  split; [exact Hr|]. exact (proj1 (tiling_holds_throughout one_block Hr)).
Defined.

(** [round_up8 n] is the least multiple of 8 that is at least [n]. *)
Lemma round_up8_least n :
  n <= round_up8 n < n + 8 ∧ (8 | round_up8 n) ∧
  ∀ k, (8 | k) → n <= k → round_up8 n <= k.
Proof.
  unfold round_up8.
  pose proof (Z.div_mod (n + 7) 8 ltac:(lia)) as Hdm.
  pose proof (Z.mod_pos_bound (n + 7) 8 ltac:(lia)) as Hmod.
  split; [lia|]. split; [exists ((n + 7) / 8); lia|].
  intros k [q ->] Hk. lia.
Qed.

(** Below the wrap-around the macro is the rounding of the specification. *)
Lemma ALIGN_round_up8 n : 0 <= n <= 2 ^ 32 - 8 → ALIGN n = round_up8 n.
Proof.
  intros Hn. rewrite ALIGN_eq, wrap32_small by lia. reflexivity.
Qed.

(** First fit for requests of up to [2^32 - 8] bytes: when the chain is
    [l1 ++ (a, c) :: l2], no chunk of [l1] is free with a size of at least
    the request rounded up to a multiple of 8, and [c] is, then
    [heap_alloc] takes the chunk at [a], whatever [l2] holds, and returns
    [a] plus one header width. *)
Lemma first_fit_below_wrap st n l1 a c l2 :
  0 <= n <= 2 ^ 32 - 8 →
  chain_of st (l1 ++ (a, c) :: l2) →
  Forall (λ x, inuse x.2 = true ∨ size x.2 < round_up8 n) l1 →
  inuse c = false → round_up8 n <= size c →
  ∃ st', heap_alloc st n = Some (st', a + HDR) ∧
    heap st' = heap st ∧
    mem st' = take_chunk (mem st) a c (round_up8 n) ∧
    (∃ c', mem st' !! a = Some c' ∧ inuse c' = true).
Proof.
  intros Hn Hch Hno Hfree Hsz. rewrite <- (ALIGN_round_up8 n Hn) in *.
  assert (fits (ALIGN n) c = true) as Hfit by (apply fits_true_iff; auto).
  eexists. split; [|split; [|split]].
  - apply (heap_alloc_hit _ _ _ _ _ _ Hch (no_fit_Forall _ _ Hno) Hfit).
  - reflexivity.
  - reflexivity.
  - simpl. unfold take_chunk. destruct (splits (ALIGN n) c);
      eexists; (split; [apply lookup_insert_eq | reflexivity]).
Qed.

Example first_fit_skips_tighter_fit :
  ∃ st', heap_alloc fragmented 197 = Some (st', 1120 + HDR) ∧
    heap st' = heap fragmented ∧
    mem st' =
      take_chunk (mem fragmented) 1120
        {| size := 512; inuse := false; next := 1648 |} 200 ∧
    (∃ c', mem st' !! 1120 = Some c' ∧ inuse c' = true).
Proof.
  apply (first_fit_below_wrap fragmented 197
           [(1000, {| size := 104; inuse := true; next := 1120 |})]
           1120 {| size := 512; inuse := false; next := 1648 |}
           [(1648, {| size := 8; inuse := true; next := 1672 |});
            (1672, {| size := 256; inuse := false; next := 1944 |});
            (1944, {| size := 8; inuse := true; next := 0 |})]).
  - lia.
  - apply heap_chain_sound. vm_compute. reflexivity.
  - repeat constructor.
  - reflexivity.
  - vm_compute. discriminate.
Qed.

(** C2. First fit fails for requests above [2^32 - 8].  A request of
    0xFFFFFFFF bytes rounds up to [2^32]; no chunk of the heap
    [fragmented] is that large, so no chunk qualifies, yet [heap_alloc]
    takes the first free chunk, of 512 bytes, and returns its payload
    address: inside [heap_alloc] the aligned size has wrapped to 0. *)
Theorem first_fit_takes_smaller_chunk :
  heap_chain fragmented = Some fragmented_chain ∧
  round_up8 4294967295 = 2 ^ 32 ∧
  Forall (λ x, size x.2 < round_up8 4294967295) fragmented_chain ∧
  ALIGN 4294967295 = 0 ∧
  snd <$> heap_alloc fragmented 4294967295 = Some (1120 + HDR).
Proof.
  split; [vm_compute; reflexivity|].
  split; [reflexivity|].
  split; [repeat constructor|].
  split; vm_compute; reflexivity.
Qed.

(** Splitting threshold for requests of up to [2^32 - 8] bytes: the
    selected chunk is split exactly when its payload exceeds the request
    rounded up to a multiple of 8 by at least one header width plus one
    alignment unit.  When it is split its size becomes the rounded request
    and a new free chunk that owns all the remaining bytes follows it in
    the chain; otherwise it is handed out whole. *)
Lemma split_threshold_below_wrap st n l1 a c l2 :
  0 <= n <= 2 ^ 32 - 8 →
  heap_repr st (l1 ++ (a, c) :: l2) →
  Forall (λ x, inuse x.2 = true ∨ size x.2 < round_up8 n) l1 →
  inuse c = false → round_up8 n <= size c →
  ∃ st', heap_alloc st n = Some (st', a + HDR) ∧
    (HDR + ALIGNMENT <= size c - round_up8 n →
       heap_repr st'
         (l1 ++
          (a, {| size := round_up8 n; inuse := true;
                 next := a + HDR + round_up8 n |}) ::
          (a + HDR + round_up8 n,
           {| size := size c - round_up8 n - HDR; inuse := false;
              next := next c |}) :: l2)) ∧
    (size c - round_up8 n < HDR + ALIGNMENT →
       heap_repr st'
         (l1 ++ (a, {| size := size c; inuse := true; next := next c |})
             :: l2)).
Proof.
  intros Hn Hrep Hno Hfree Hsz. rewrite <- (ALIGN_round_up8 n Hn) in *.
  assert (fits (ALIGN n) c = true) as Hfit by (apply fits_true_iff; auto).
  destruct (heap_alloc_repr_hit _ _ _ _ _ _ Hrep (no_fit_Forall _ _ Hno) Hfit)
    as (st' & Hrun & _ & _ & Hrep').
  exists st'. split; [exact Hrun|].
  unfold split_chunk, splits in Hrep'.
  split; intros Hrem.
  - assert ((ALIGN n + HDR + ALIGNMENT <=? size c) = true) as Hle
      by (apply Z.leb_le; lia).
    rewrite Hle in Hrep'. exact Hrep'.
  - assert ((ALIGN n + HDR + ALIGNMENT <=? size c) = false) as Hgt
      by (apply Z.leb_gt; lia).
    rewrite Hgt in Hrep'. exact Hrep'.
Qed.

(** The two sides of the threshold, for a request of 113 bytes (rounded
    up to 120): a remainder of 24 bytes is split off as a chunk of 8
    bytes, a remainder of 23 bytes is handed out with the chunk. *)
Example split_threshold_boundaries :
  (∃ st', heap_alloc (heap_init ∅ 65536 160) 113 = Some (st', 65552) ∧
     heap_repr st'
       [(65536, {| size := 120; inuse := true; next := 65672 |});
        (65672, {| size := 8; inuse := false; next := NULL |})]) ∧
  (∃ st', heap_alloc (heap_init ∅ 65536 159) 113 = Some (st', 65552) ∧
     heap_repr st' [(65536, {| size := 143; inuse := true; next := NULL |})]).
Proof.
  split.
  - destruct (split_threshold_below_wrap (heap_init ∅ 65536 160) 113 []
                65536 {| size := 144; inuse := false; next := NULL |} [])
      as (st' & Hrun & Hsplit & _).
    + lia.
    + exact (heap_init_repr ∅ 65536 160 eq_refl).
    + constructor.
    + reflexivity.
    + vm_compute. discriminate.
    + exists st'. split; [exact Hrun|]. apply Hsplit. vm_compute. discriminate.
  - destruct (split_threshold_below_wrap (heap_init ∅ 65536 159) 113 []
                65536 {| size := 143; inuse := false; next := NULL |} [])
      as (st' & Hrun & _ & Hwhole).
    + lia.
    + exact (heap_init_repr ∅ 65536 159 eq_refl).
    + constructor.
    + reflexivity.
    + vm_compute. discriminate.
    + exists st'. split; [exact Hrun|]. apply Hwhole. vm_compute. reflexivity.
Qed.

(** C3. The splitting rule fails for requests above [2^32 - 8].  A
    request of 0xFFFFFFF9 bytes rounds up to [2^32], far more than the
    4080 bytes of the only chunk of the fresh 4096-byte arena, so the
    payload does not exceed the aligned request at all; yet [heap_alloc]
    splits the chunk, into a chunk of 0 bytes in use and a free chunk of
    4064 bytes, because the aligned size has wrapped to 0. *)
Theorem wrapped_request_is_split :
  heap_chain arena =
    Some [(65536, {| size := 4080; inuse := false; next := NULL |})] ∧
  round_up8 4294967289 = 2 ^ 32 ∧
  4080 < round_up8 4294967289 ∧
  ALIGN 4294967289 = 0 ∧
  heap_alloc arena 4294967289 = Some (wrapped_block, 65552) ∧
  heap_chain wrapped_block = Some wrapped_chain.
Proof.
  split; [vm_compute; reflexivity|].
  split; [reflexivity|].
  split; [reflexivity|].
  split; [vm_compute; reflexivity|].
  split; vm_compute; reflexivity.
Qed.

(** The walk steps over the chunk that follows an absorbed one: of three
    free chunks in a row the first absorbs the second and the third is
    left next to it, free. *)
Lemma coalesce_list_head a c (l : chunks) :
  ∃ c' l', coalesce_list ((a, c) :: l) = (a, c') :: l' ∧ inuse c' = inuse c.
Proof.
  destruct l as [|[b d] l].
  - exists c, []. split; reflexivity.
  - rewrite coalesce_list_step.
    destruct (negb (inuse c) && negb (inuse d)); eexists _, _;
      split; reflexivity.
Qed.

Lemma coalesce_list_misses_third a c b d e f (l : chunks) :
  inuse c = false → inuse d = false → inuse f = false →
  adjacent_free (coalesce_list ((a, c) :: (b, d) :: (e, f) :: l)) = true.
Proof.
  intros Hc Hd Hf. rewrite coalesce_list_step, Hc, Hd. cbn [negb andb].
  destruct (coalesce_list_head e f l) as (f' & l' & -> & Hf').
  cbn [adjacent_free absorb inuse]. rewrite Hc, Hf', Hf. reflexivity.
Qed.

(** C4. Coalescing is not complete.  In the demonstration of [main] (a
    span of 4096 bytes, blocks of 128, 256 and 512 bytes allocated and then
    freed in that order) the last [heap_free] finds three free chunks in a
    row; its walk merges the first two and steps over the third, so the
    chain ends with two adjacent free chunks. *)
Theorem demo_leaves_adjacent_free_chunks :
  demo_after_frees order_123 ≫= heap_chain = Some demo_final_chain ∧
  adjacent_free demo_final_chain = true.
Proof. split; vm_compute; reflexivity. Qed.

(** C5, as stated, fails for [heap_free] of [NULL]: the call returns at
    once and [avail] keeps the value it had, which [heap_alloc] has not
    kept up to date.  After [heap_alloc] of 128 bytes in the 4096-byte
    arena, [heap_free] of [NULL] leaves [avail] at 4080 while the free
    payload of the chain is 3936. *)
Lemma avail_stale_after_free_null :
  heap_alloc arena 128 = Some (one_block, 65552) ∧
  heap_free one_block NULL = Some one_block ∧
  chain_of one_block one_block_chain ∧
  avail (heap one_block) = 4080 ∧
  free_total one_block_chain = 3936 ∧
  avail (heap one_block) ≠ free_total one_block_chain.
Proof.
  split; [vm_compute; reflexivity|].
  split; [reflexivity|].
  split; [apply heap_chain_sound; vm_compute; reflexivity|].
  split; [reflexivity|]. split; [reflexivity|].
  vm_compute. discriminate.
Qed.

(** C5, amended. After [heap_free] of a non-null address, the payload
    address of a chunk of the chain, [avail] is exactly the sum of the
    payload sizes of the free chunks of the chain. *)
Theorem avail_recomputed_after_free st ptr :
  heap_ok st → ptr ≠ NULL → in_chain st (ptr - HDR) →
  ∃ st' l', heap_free st ptr = Some st' ∧ chain_of st' l' ∧
    avail (heap st') = free_total l'.
Proof.
  intros [l Hl] _ (l' & Hch' & Hin).
  pose proof Hl as (_ & Hch & _).
  assert (l' = l) as -> by (eapply chain_functional; eassumption).
  destruct (chain_from_member _ _ _ _ Hch Hin) as (l1 & c & l2 & -> & _).
  destruct (heap_free_repr _ _ _ _ _ Hl) as (st' & Hrun & _ & Hrep & Hav).
  replace (ptr - HDR + HDR) with ptr in Hrun by lia.
  exists st', (coalesce_list (l1 ++ (ptr - HDR, set_inuse c false) :: l2)).
  split; [exact Hrun|]. split; [|exact Hav].
  destruct Hrep as (_ & Hch2 & _). exact Hch2.
Qed.

Lemma avail_recomputed_after_free_witness :
  ∃ st' l', heap_free one_block 65552 = Some st' ∧ chain_of st' l' ∧
    avail (heap st') = free_total l'.
Proof.
  apply (avail_recomputed_after_free one_block 65552).
  - apply reachable_ok. apply (reach_alloc arena 128 one_block 65552).
    + apply reach_init. lia.
    + vm_compute. reflexivity.
  - vm_compute. discriminate.
  - exists one_block_chain. split.
    + apply heap_chain_sound. vm_compute. reflexivity.
    + vm_compute. apply elem_of_cons. left. reflexivity.
Defined.

Lemma forallb_below (f : Z → bool) (b : nat) :
  forallb (λ k, f (Z.of_nat k)) (seq 0 b) = true →
  ∀ z, 0 <= z < Z.of_nat b → f z = true.
Proof.
  intros H z Hz. rewrite forallb_forall in H.
  specialize (H (Z.to_nat z)). rewrite Z2Nat.id in H by lia.
  apply H. apply in_seq. lia.
Qed.

Lemma refill_fails_spec order n :
  refill_fails order n = true → demo_refill order n = Some NULL.
Proof.
  unfold refill_fails. destruct (demo_refill order n) as [p|]; [|discriminate].
  intros Hp. apply Z.eqb_eq in Hp. congruence.
Qed.

(** C6. In the 4096-byte arena the three requests succeed at increasing
    addresses with disjoint payloads.  A request for all but three header
    widths of the span then succeeds when the blocks were freed last to
    first, and fails in each of the five other orders, with no slack and
    with every slack below 384 bytes: the chain still holds two free
    chunks that the walk of [heap_free] did not merge. *)
Theorem demo_refill_depends_on_order :
  snd <$> three_blocks = Some (65552, 65696, 65968) ∧
  65552 + 128 <= 65696 ∧ 65696 + 256 <= 65968 ∧
  65968 + 512 <= 65536 + 4096 ∧
  demo_refill order_321 (4096 - 3 * HDR) = Some 65552 ∧
  ∀ slack, 0 <= slack < 384 →
    demo_refill order_123 (4096 - 3 * HDR - slack) = Some NULL ∧
    demo_refill order_132 (4096 - 3 * HDR - slack) = Some NULL ∧
    demo_refill order_213 (4096 - 3 * HDR - slack) = Some NULL ∧
    demo_refill order_231 (4096 - 3 * HDR - slack) = Some NULL ∧
    demo_refill order_312 (4096 - 3 * HDR - slack) = Some NULL.
Proof.
  split; [vm_compute; reflexivity|].
  do 3 (split; [lia|]).
  split; [vm_compute; reflexivity|].
  intros slack Hslack.
  repeat split; apply refill_fails_spec;
    match goal with
    | |- refill_fails ?o _ = true =>
        apply (forallb_below (λ k, refill_fails o (4096 - 3 * HDR - k))
                 384%nat); [vm_compute; reflexivity | lia]
    end.
Qed.

(** Every free chunk is at most as large as the free payload in total. *)
Lemma free_total_ge (l : chunks) :
  ∀ p x, tiles p l → x ∈ l → inuse x.2 = false → size x.2 <= free_total l.
Proof.
  induction l as [|[a c] l IH]; intros p x Ht Hin Hfree; simpl in *.
  - apply elem_of_nil in Hin. contradiction.
  - destruct Ht as (_ & Hc & Ht).
    pose proof (free_total_bounds _ _ Ht) as [Hf _].
    apply elem_of_cons in Hin as [->|Hin].
    + simpl in *. rewrite Hfree. lia.
    + specialize (IH _ _ Ht Hin Hfree). destruct (inuse c); lia.
Qed.

(** Below the wrap-around of [ALIGN], a request beyond the free payload of
    the heap is refused and nothing is written. *)
Lemma alloc_beyond_capacity st l n :
  heap_repr st l → free_total l < n → n <= 2 ^ 32 - 8 →
  heap_alloc st n = Some (st, NULL).
Proof.
  intros (_ & Hch & Ht & _) Hn Hmax.
  pose proof (free_total_bounds _ _ Ht) as [Hf _].
  destruct (ALIGN_round_up n ltac:(lia)) as [[Hle _] _].
  eapply heap_alloc_miss; [exact Hch|].
  apply Forall_forall. intros x Hx. apply fits_false_iff.
  destruct (inuse x.2) eqn:Hfree; [left; reflexivity|]. right.
  pose proof (free_total_ge _ _ _ Ht Hx Hfree). lia.
Qed.

(** C7. A request of 0xFFFFFFFF bytes exceeds the 4080 free bytes of the
    fresh 4096-byte arena, yet [heap_alloc] does not refuse it: [ALIGN]
    wraps to 0, the first chunk is taken and split, and a non-null address
    is returned. *)
Theorem alloc_wrapped_request_succeeds :
  heap_chain arena =
    Some [(65536, {| size := 4080; inuse := false; next := NULL |})] ∧
  free_total [(65536, {| size := 4080; inuse := false; next := NULL |})]
    < 4294967295 ∧
  heap_alloc arena 4294967295 = Some (wrapped_block, 65552) ∧
  heap_chain wrapped_block = Some wrapped_chain ∧
  mem wrapped_block ≠ mem arena.
Proof.
  split; [vm_compute; reflexivity|].
  split; [vm_compute; reflexivity|].
  split; [vm_compute; reflexivity|].
  split; [vm_compute; reflexivity|].
  intros Heq. apply (f_equal (λ m : memory, m !! 65552)) in Heq.
  vm_compute in Heq. discriminate.
Qed.

Lemma take_chunk_lookup (m : memory) a c sz :
  ∃ c', take_chunk m a c sz !! a = Some c' ∧
    size c' = (if splits sz c then sz else size c) ∧ inuse c' = true.
Proof.
  unfold take_chunk. destruct (splits sz c); eexists;
    (split; [apply lookup_insert_eq | split; reflexivity]).
Qed.

(** Round trip for requests of up to [2^32 - 8] bytes: the size that
    [heap_sizeof] reports for an address that [heap_alloc] returned is at
    least the request rounded up to a multiple of 8, hence at least the
    request. *)
Lemma sizeof_roundtrip_below_wrap st n st' p :
  0 <= n <= 2 ^ 32 - 8 →
  heap_alloc st n = Some (st', p) → p ≠ NULL →
  ∃ sz, heap_sizeof (mem st') p = Some sz ∧ round_up8 n <= sz ∧ n <= sz.
Proof.
  unfold heap_alloc. intros Hn Hrun Hp.
  destruct (alloc_loop _ _ _ _) as [[m' r]|] eqn:Hloop; [|discriminate].
  injection Hrun as <- <-.
  destruct (alloc_loop_result _ _ _ _ _ _ Hloop Hp)
    as (a & c & -> & Hc & Hfit & ->).
  destruct (take_chunk_lookup (mem st) a c (ALIGN n)) as (c' & Hc' & Hsz & _).
  apply fits_true_iff in Hfit as [_ Hfit].
  pose proof (round_up8_least n) as [Hle _].
  rewrite (ALIGN_round_up8 n Hn) in *.
  exists (size c'). split.
  - unfold heap_sizeof. simpl. apply Z.eqb_neq in Hp. rewrite Hp.
    replace (a + HDR - HDR) with a by lia. rewrite Hc'. reflexivity.
  - rewrite Hsz. destruct (splits (round_up8 n) c); lia.
Qed.

(** C8. The round trip fails for requests above [2^32 - 8].  In the fresh
    4096-byte arena [heap_alloc] of 0xFFFFFFFF bytes succeeds, and
    [heap_sizeof] of the address it returns is 0, while the request
    rounded up to a multiple of 8 is [2^32]: the aligned size has wrapped
    to 0. *)
Theorem roundtrip_fails_on_wrapped_request :
  heap_alloc arena 4294967295 = Some (wrapped_block, 65552) ∧
  65552 ≠ NULL ∧
  heap_sizeof (mem wrapped_block) 65552 = Some 0 ∧
  round_up8 4294967295 = 2 ^ 32 ∧
  0 < round_up8 4294967295.
Proof.
  split; [vm_compute; reflexivity|].
  split; [vm_compute; discriminate|].
  split; [vm_compute; reflexivity|].
  split; reflexivity.
Qed.

(** C9. [heap_alloc] leaves [avail] as it was, whether it hands out a
    chunk split or whole or returns [NULL]; and on every represented heap
    it does return. *)
Theorem alloc_keeps_avail st n :
  (∀ st' p, heap_alloc st n = Some (st', p) →
     avail (heap st') = avail (heap st)) ∧
  (heap_ok st → ∃ st' p, heap_alloc st n = Some (st', p)).
Proof.
  split.
  - unfold heap_alloc. intros st' p Hrun.
    destruct (alloc_loop _ _ _ _) as [[m' r]|]; [|discriminate].
    injection Hrun as <- <-. reflexivity.
  - intros Hok. destruct (heap_alloc_ok st n Hok) as (st' & p & Hrun & _).
    eauto.
Qed.

Lemma alloc_keeps_avail_witness :
  avail (heap one_block) = avail (heap arena).
Proof.
  apply (proj1 (alloc_keeps_avail arena 128) one_block 65552).
  vm_compute. reflexivity.
Defined.

(** C10. For a request above [2^32 - 8] the sum inside [ALIGN] wraps and
    the macro yields 0 ([ALIGN 0xFFFFFFFF = 0]); on a heap that has a free
    chunk [heap_alloc] then returns a non-null address of a chunk whose
    payload is less than a header width plus an alignment unit. *)
Theorem align_wraps_to_small_chunk st l n :
  2 ^ 32 - 8 < n < 2 ^ 32 → heap_repr st l →
  (∃ x, x ∈ l ∧ inuse x.2 = false) →
  ALIGN 4294967295 = 0 ∧ ALIGN n = 0 ∧
  ∃ st' p sz, heap_alloc st n = Some (st', p) ∧ p ≠ NULL ∧
    heap_sizeof (mem st') p = Some sz ∧ sz < HDR + ALIGNMENT ∧ sz < n.
Proof.
  intros Hn Hrep (x & Hx & Hfree).
  pose proof (ALIGN_wraps n Hn) as Hal.
  split; [reflexivity|]. split; [exact Hal|].
  pose proof Hrep as (Hp & Hch & Ht & _).
  destruct (first_fit_cases (ALIGN n) l)
    as [Hno|(l1 & a & c & l2 & -> & Hno & Hfit)].
  - exfalso. rewrite Forall_forall in Hno. specialize (Hno x Hx).
    apply fits_false_iff in Hno as [Hno|Hno]; [congruence|].
    assert (x.1 ∈ l.*1) as Hx1 by (apply list_elem_of_fmap; eauto).
    destruct (list_elem_of_split _ _ Hx) as (k1 & k2 & ->).
    apply tiles_app in Ht as [_ Ht]. destruct x as [b d]. simpl in *.
    lia.
  - destruct (heap_alloc_repr_hit _ _ _ _ _ _ Hrep Hno Hfit)
      as (st' & Hrun & _ & Hmem & _).
    assert (a ∈ (l1 ++ (a, c) :: l2).*1) as Hin.
    { rewrite fmap_app. apply elem_of_app. right. simpl.
      apply elem_of_cons. left. reflexivity. }
    pose proof (tiles_bounds _ _ Ht _ Hin) as [Hpa _].
    destruct (take_chunk_lookup (mem st) a c (ALIGN n))
      as (c' & Hc' & Hsz & _).
    apply tiles_app in Ht as [_ (_ & Hc & _)].
    exists st', (a + HDR), (size c'). split; [exact Hrun|].
    split; [unfold NULL, HDR; lia|]. split.
    + unfold heap_sizeof.
      assert ((a + HDR =? NULL) = false) as ->
        by (apply Z.eqb_neq; unfold NULL, HDR; lia).
      replace (a + HDR - HDR) with a by lia. rewrite Hmem, Hc'. reflexivity.
    + rewrite Hsz. unfold splits. rewrite Hal.
      destruct (0 + HDR + ALIGNMENT <=? size c) eqn:Hsp;
        [unfold HDR, ALIGNMENT; lia|].
      apply Z.leb_gt in Hsp. unfold HDR, ALIGNMENT in *. lia.
Qed.

Lemma align_wraps_to_small_chunk_witness :
  ALIGN 4294967295 = 0 ∧ ALIGN 4294967295 = 0 ∧
  ∃ st' p sz, heap_alloc arena 4294967295 = Some (st', p) ∧ p ≠ NULL ∧
    heap_sizeof (mem st') p = Some sz ∧ sz < HDR + ALIGNMENT ∧
    sz < 4294967295.
Proof.
  apply (align_wraps_to_small_chunk arena
           [(65536, {| size := wrap32 (4096 - HDR); inuse := false;
                       next := NULL |})] 4294967295).
  - lia.
  - exact (heap_init_repr ∅ 65536 4096 eq_refl).
  - eexists. split; [apply elem_of_cons; left; reflexivity | reflexivity].
Defined.

(** * Further properties of the code *)

(** ** Layout of a represented heap *)

Lemma chain_lookup (m : memory) (l : chunks) :
  ∀ p a c, chain m p l → (a, c) ∈ l → m !! a = Some c.
Proof.
  induction l as [|[b d] l IH]; intros p a c Hch Hin; simpl in *.
  - apply elem_of_nil in Hin. contradiction.
  - destruct Hch as (-> & _ & Hd & Hl).
    apply elem_of_cons in Hin as [Heq|Hin]; [congruence | eauto].
Qed.

Lemma tiles_member_bounds (l : chunks) :
  ∀ p a c, tiles p l → (a, c) ∈ l →
    p <= a ∧ a + HDR + size c <= p + extent l ∧ 0 <= size c < 2 ^ 32.
Proof.
  induction l as [|[b d] l IH]; intros p a c Ht Hin; simpl in *.
  - apply elem_of_nil in Hin. contradiction.
  - destruct Ht as (-> & Hd & Hl).
    pose proof (tiles_extent_nonneg _ _ Hl).
    apply elem_of_cons in Hin as [Heq|Hin].
    + injection Heq as -> ->. unfold HDR. lia.
    + specialize (IH _ _ _ Hl Hin). unfold HDR in *. lia.
Qed.

Lemma tiles_ordered (l : chunks) :
  ∀ p (i j : nat) a c b d, tiles p l →
    l !! i = Some (a, c) → l !! j = Some (b, d) → (i < j)%nat →
    a + HDR + size c <= b.
Proof.
  induction l as [|[e f] l IH]; intros p i j a c b d Ht Hi Hj Hij;
    [discriminate|].
  destruct Ht as (-> & Hf & Hl).
  destruct j as [|j]; [lia|]. simpl in Hj.
  destruct i as [|i]; simpl in Hi.
  - injection Hi as <- <-.
    apply list_elem_of_lookup_2 in Hj.
    apply (tiles_member_bounds _ _ _ _ Hl) in Hj. lia.
  - eapply (IH _ i j); [exact Hl | eassumption.. | lia].
Qed.

(** The two ways a call of [heap_alloc] on a represented heap can go. *)
Lemma heap_alloc_cases st l n :
  heap_repr st l →
  (Forall (λ x, fits (ALIGN n) x.2 = false) l ∧
   heap_alloc st n = Some (st, NULL)) ∨
  (∃ l1 a c l2 st', l = l1 ++ (a, c) :: l2 ∧
     Forall (λ x, fits (ALIGN n) x.2 = false) l1 ∧
     fits (ALIGN n) c = true ∧
     heap_alloc st n = Some (st', a + HDR) ∧ a + HDR ≠ NULL ∧
     heap st' = heap st ∧
     mem st' = take_chunk (mem st) a c (ALIGN n) ∧
     heap_repr st' (l1 ++ split_chunk a c (ALIGN n) ++ l2)).
Proof.
  intros Hrep.
  destruct (first_fit_cases (ALIGN n) l)
    as [Hno|(l1 & a & c & l2 & -> & Hno & Hfit)].
  - left. split; [exact Hno|].
    destruct Hrep as (_ & Hch & _). eapply heap_alloc_miss; eassumption.
  - right.
    destruct (heap_alloc_repr_hit _ _ _ _ _ _ Hrep Hno Hfit)
      as (st' & Hrun & Hheap & Hmem & Hrep').
    exists l1, a, c, l2, st'.
    split; [reflexivity|]. split; [exact Hno|]. split; [exact Hfit|].
    split; [exact Hrun|]. split; [|auto].
    destruct Hrep as (Hp & _ & Ht & _).
    assert ((a, c) ∈ l1 ++ (a, c) :: l2) as Hin
      by (apply elem_of_app; right; apply elem_of_cons; left; reflexivity).
    apply (tiles_member_bounds _ _ _ _ Ht) in Hin.
    unfold NULL, HDR in *. lia.
Qed.


Lemma one_block_repr : heap_repr one_block one_block_chain.
Proof.
  unfold heap_repr. split; [reflexivity|]. split.
  - apply heap_chain_sound. vm_compute. reflexivity.
  - split; [|vm_compute; discriminate].
    vm_compute. repeat split; try reflexivity; discriminate.
Qed.


Lemma reachable_repr st l : reachable st → chain_of st l → heap_repr st l.
Proof.
  intros Hr Hch. destruct (reachable_ok _ Hr) as [l' Hrep].
  pose proof Hrep as (_ & Hch' & _).
  assert (l = l') as -> by (eapply chain_functional; eassumption).
  exact Hrep.
Qed.

Lemma member_of_middle {A} (x y : A) (l1 l2 : list A) :
  x ∈ l1 ++ y :: l2 → x ∈ l1 ∨ x = y ∨ x ∈ l2.
Proof.
  intros Hin. apply elem_of_app in Hin as [Hin|Hin]; [auto|].
  apply elem_of_cons in Hin as [Hin|Hin]; auto.
Qed.

Lemma heap_sizeof_payload (m : memory) a c :
  0 < a → m !! a = Some c → heap_sizeof m (a + HDR) = Some (size c).
Proof.
  intros Ha Hc. unfold heap_sizeof.
  assert ((a + HDR =? NULL) = false) as ->
    by (apply Z.eqb_neq; unfold NULL, HDR; lia).
  replace (a + HDR - HDR) with a by lia. rewrite Hc. reflexivity.
Qed.


Lemma fragmented_repr : heap_repr fragmented fragmented_chain.
Proof.
  unfold heap_repr. split; [reflexivity|]. split.
  - apply heap_chain_sound. vm_compute. reflexivity.
  - split; [|vm_compute; discriminate].
    vm_compute. repeat split; try reflexivity; discriminate.
Qed.


(** X3. In every heap that the operations produce the chunks of the chain
    lie in strictly increasing address order, do not overlap, and stay
    inside the bytes from [start] to the end of the last chunk. *)
Theorem chunks_disjoint_in_order st l (i j : nat) a c b d :
  reachable st → chain_of st l →
  l !! i = Some (a, c) → l !! j = Some (b, d) → (i < j)%nat →
  start (heap st) <= a ∧ a + HDR + size c <= b ∧
  b + HDR + size d <= start (heap st) + extent l.
Proof.
  intros Hr Hch Hi Hj Hij.
  destruct (reachable_repr _ _ Hr Hch) as (_ & _ & Ht & _).
  pose proof (tiles_ordered _ _ _ _ _ _ _ _ Ht Hi Hj Hij).
  apply list_elem_of_lookup_2 in Hi, Hj.
  apply (tiles_member_bounds _ _ _ _ Ht) in Hi, Hj. lia.
Qed.

Lemma one_block_reachable : reachable one_block.
Proof.
  apply (reach_alloc arena 128 one_block 65552).
  - apply reach_init. lia.
  - vm_compute. reflexivity.
Qed.

Lemma chunks_disjoint_in_order_witness :
  start (heap one_block) <= 65536 ∧ 65536 + HDR + 128 <= 65680 ∧
  65680 + HDR + 3936 <= start (heap one_block) + extent one_block_chain.
Proof.
  apply (chunks_disjoint_in_order one_block one_block_chain 0 1
           65536 {| size := 128; inuse := true; next := 65680 |}
           65680 {| size := 3936; inuse := false; next := 0 |}).
  - exact one_block_reachable.
  - apply heap_chain_sound. vm_compute. reflexivity.
  - reflexivity.
  - reflexivity.
  - lia.
Defined.

(** X4. The block that [heap_alloc] hands out lies inside the span of the
    heap and overlaps no chunk that was in use, header included. *)
Theorem alloc_block_is_fresh st l n st' p :
  heap_repr st l → heap_alloc st n = Some (st', p) → p ≠ NULL →
  ∃ sz, heap_sizeof (mem st') p = Some sz ∧
    start (heap st) <= p - HDR ∧ p + sz <= start (heap st) + extent l ∧
    ∀ b d, (b, d) ∈ l → inuse d = true →
      b + HDR + size d <= p - HDR ∨ p + sz <= b.
Proof.
  intros Hrep Hrun Hp.
  destruct (heap_alloc_cases st l n Hrep)
    as [[_ Hrun']|(l1 & a & c & l2 & st'' & -> & _ & Hfit & Hrun' & _ & _
                   & Hmem & _)];
    [congruence|].
  assert (p = a + HDR) as -> by congruence.
  assert (st'' = st') as -> by congruence.
  destruct Hrep as (Hs & _ & Ht & _).
  assert ((a, c) ∈ l1 ++ (a, c) :: l2) as Hac
    by (apply elem_of_app; right; apply elem_of_cons; left; reflexivity).
  pose proof (tiles_member_bounds _ _ _ _ Ht Hac) as (Hlo & Hhi & Hc).
  destruct (take_chunk_lookup (mem st) a c (ALIGN n)) as (c' & Hc' & Hsz & _).
  rewrite <- Hmem in Hc'.
  apply fits_true_iff in Hfit as [Hfree Hfit].
  assert (size c' <= size c) as Hle
    by (rewrite Hsz; destruct (splits (ALIGN n) c); lia).
  exists (size c'). split; [apply heap_sizeof_payload; [lia | exact Hc']|].
  split; [lia|]. split; [lia|].
  intros b d Hin Hused.
  pose proof Ht as Ht'. apply tiles_app in Ht' as [Ht1 (Ha & _ & Ht2)].
  apply member_of_middle in Hin as [Hin|[Heq|Hin]].
  - left. apply (tiles_member_bounds _ _ _ _ Ht1) in Hin. lia.
  - injection Heq as -> ->. congruence.
  - right. apply (tiles_member_bounds _ _ _ _ Ht2) in Hin. lia.
Qed.

Lemma alloc_block_is_fresh_witness :
  ∃ st', heap_alloc one_block 64 = Some (st', 65696) ∧
    ∃ sz, heap_sizeof (mem st') 65696 = Some sz ∧
      start (heap one_block) <= 65696 - HDR ∧
      65696 + sz <= start (heap one_block) + extent one_block_chain ∧
      ∀ b d, (b, d) ∈ one_block_chain → inuse d = true →
        b + HDR + size d <= 65696 - HDR ∨ 65696 + sz <= b.
Proof.
  eexists. split; [vm_compute; reflexivity|].
  eapply (alloc_block_is_fresh one_block one_block_chain 64 _ 65696
            one_block_repr);
    [vm_compute; reflexivity | vm_compute; discriminate].
Defined.

(** X5. [heap_alloc] does not touch the header of any chunk that is in
    use: the size that [heap_sizeof] reports for an outstanding block is
    the same after every later allocation. *)
Theorem alloc_keeps_live_headers st l n st' p b d :
  heap_repr st l → heap_alloc st n = Some (st', p) →
  (b, d) ∈ l → inuse d = true →
  mem st' !! b = Some d ∧
  heap_sizeof (mem st') (b + HDR) = Some (size d).
Proof.
  intros Hrep Hrun Hin Hused.
  assert (0 < b) as Hb.
  { destruct Hrep as (Hs & _ & Ht & _).
    apply (tiles_member_bounds _ _ _ _ Ht) in Hin. lia. }
  enough (mem st' !! b = Some d) as Hd
    by (split; [exact Hd | apply heap_sizeof_payload; assumption]).
  destruct (heap_alloc_cases st l n Hrep)
    as [[_ Hrun']|(l1 & a & c & l2 & st'' & -> & _ & Hfit & Hrun' & _ & _
                   & _ & Hrep')].
  - assert (st' = st) as -> by congruence.
    destruct Hrep as (_ & Hch & _). eapply chain_lookup; eassumption.
  - assert (st'' = st') as -> by congruence.
    destruct Hrep' as (_ & Hch' & _).
    eapply chain_lookup; [exact Hch'|].
    apply fits_true_iff in Hfit as [Hfree _].
    apply member_of_middle in Hin as [Hin|[Heq|Hin]].
    + apply elem_of_app. left. exact Hin.
    + injection Heq as -> ->. congruence.
    + apply elem_of_app. right. apply elem_of_app. right. exact Hin.
Qed.

Lemma alloc_keeps_live_headers_witness :
  ∃ st', heap_alloc one_block 64 = Some (st', 65696) ∧
    mem st' !! 65536 =
      Some {| size := 128; inuse := true; next := 65680 |} ∧
    heap_sizeof (mem st') (65536 + HDR) = Some 128.
Proof.
  eexists. split; [vm_compute; reflexivity|].
  eapply (alloc_keeps_live_headers one_block one_block_chain 64 _ 65696
            65536 {| size := 128; inuse := true; next := 65680 |}
            one_block_repr);
    [vm_compute; reflexivity | apply elem_of_cons; left; reflexivity
    | reflexivity].
Defined.

(** ** What [heap_free] keeps and restores *)

Lemma coalesce_list_keeps_inuse (l : chunks) :
  ∀ b d, (b, d) ∈ l → inuse d = true → (b, d) ∈ coalesce_list l.
Proof.
  induction l as [| x | [a c] [e f] l IH1 IH2] using chunks_pair_ind;
    intros b d Hin Hused.
  - exact Hin.
  - destruct x. exact Hin.
  - rewrite coalesce_list_step.
    destruct (inuse c) eqn:Hc; cbn [negb andb];
      [|destruct (inuse f) eqn:Hf; cbn [negb andb]].
    + apply elem_of_cons in Hin as [->|Hin];
        [apply elem_of_cons; left; reflexivity|].
      apply elem_of_cons. right. apply IH2; assumption.
    + apply elem_of_cons in Hin as [->|Hin];
        [apply elem_of_cons; left; reflexivity|].
      apply elem_of_cons. right. apply IH2; assumption.
    + apply elem_of_cons in Hin as [Heq|Hin];
        [injection Heq as -> ->; congruence|].
      apply elem_of_cons in Hin as [Heq|Hin];
        [injection Heq as -> ->; congruence|].
      apply elem_of_cons. right. apply IH1; assumption.
Qed.

(** X6. [heap_free] of one block does not touch the header of any other
    chunk that is in use: its size, flag and link stay as they were, and
    so does what [heap_sizeof] reports for it. *)
Theorem free_keeps_live_headers st l1 a c l2 b d :
  heap_repr st (l1 ++ (a, c) :: l2) →
  (b, d) ∈ l1 ++ l2 → inuse d = true →
  ∃ st', heap_free st (a + HDR) = Some st' ∧
    mem st' !! b = Some d ∧
    heap_sizeof (mem st') (b + HDR) = Some (size d).
Proof.
  intros Hrep Hin Hused.
  destruct (heap_free_repr _ _ _ _ _ Hrep) as (st' & Hrun & _ & Hrep' & _).
  exists st'. split; [exact Hrun|].
  assert (mem st' !! b = Some d) as Hd.
  { destruct Hrep' as (_ & Hch' & _).
    eapply chain_lookup; [exact Hch'|].
    apply coalesce_list_keeps_inuse; [|exact Hused].
    apply elem_of_app in Hin as [Hin|Hin]; apply elem_of_app;
      [left; exact Hin | right; apply elem_of_cons; right; exact Hin]. }
  split; [exact Hd|]. apply heap_sizeof_payload; [|exact Hd].
  destruct Hrep as (Hs & _ & Ht & _).
  assert ((b, d) ∈ l1 ++ (a, c) :: l2) as Hin'.
  { apply elem_of_app in Hin as [Hin|Hin]; apply elem_of_app;
      [left; exact Hin | right; apply elem_of_cons; right; exact Hin]. }
  apply (tiles_member_bounds _ _ _ _ Ht) in Hin'. lia.
Qed.

Lemma free_keeps_live_headers_witness :
  ∃ st', heap_free fragmented (1648 + HDR) = Some st' ∧
    mem st' !! 1000 = Some {| size := 104; inuse := true; next := 1120 |} ∧
    heap_sizeof (mem st') (1000 + HDR) = Some 104.
Proof.
  apply (free_keeps_live_headers fragmented
           [(1000, {| size := 104; inuse := true; next := 1120 |});
            (1120, {| size := 512; inuse := false; next := 1648 |})]
           1648 {| size := 8; inuse := true; next := 1672 |}
           [(1672, {| size := 256; inuse := false; next := 1944 |});
            (1944, {| size := 8; inuse := true; next := 0 |})]
           1000 {| size := 104; inuse := true; next := 1120 |}).
  - exact fragmented_repr.
  - apply elem_of_cons. left. reflexivity.
  - reflexivity.
Defined.

Lemma extent_split_chunk a c sz : extent (split_chunk a c sz) = HDR + size c.
Proof. unfold split_chunk. destruct (splits sz c); simpl; lia. Qed.

(** X7. The chain always covers the same bytes.  [heap_init] on a span of
    at least one header makes a chain that covers the span exactly, and
    neither [heap_alloc] nor [heap_free] changes the number of bytes that
    the chunks of the chain cover, headers included. *)
Theorem span_is_conserved st l :
  heap_repr st l →
  (∀ n st' p, heap_alloc st n = Some (st', p) →
     ∃ l', heap_repr st' l' ∧ extent l' = extent l) ∧
  (∀ ptr st', ptr = NULL ∨ in_chain st (ptr - HDR) →
     heap_free st ptr = Some st' →
     ∃ l', heap_repr st' l' ∧ extent l' = extent l) ∧
  (∀ m s sz, 0 < s → HDR <= sz < 2 ^ 32 →
     ∃ l0, heap_repr (heap_init m s sz) l0 ∧ extent l0 = sz).
Proof.
  intros Hrep. split; [|split].
  - intros n st' p Hrun.
    destruct (heap_alloc_cases st l n Hrep)
      as [[_ Hrun']|(l1 & a & c & l2 & st'' & -> & _ & _ & Hrun' & _ & _
                     & _ & Hrep')].
    + assert (st' = st) as -> by congruence. exists l. auto.
    + assert (st'' = st') as -> by congruence.
      eexists. split; [exact Hrep'|].
      rewrite !extent_app, extent_split_chunk. simpl. lia.
  - intros ptr st' [->|(l' & Hch' & Hin)] Hrun.
    + assert (st' = st) as -> by (cbn in Hrun; congruence).
      exists l. auto.
    + pose proof Hrep as (_ & Hch & Ht & Hext).
      assert (l' = l) as -> by (eapply chain_functional; eassumption).
      destruct (chain_from_member _ _ _ _ Hch Hin) as (l1 & c & l2 & -> & _).
      destruct (heap_free_repr _ _ _ _ _ Hrep) as (st'' & Hrun' & _ & Hrep' & _).
      replace (ptr - HDR + HDR) with ptr in Hrun' by lia.
      assert (st'' = st') as -> by congruence.
      eexists. split; [exact Hrep'|].
      destruct (tiles_update l1 l2 _ c (set_inuse c false) _ eq_refl Ht)
        as [Ht1 He1].
      destruct (tiles_coalesce _ _ Ht1 ltac:(lia)) as [_ He2]. lia.
  - intros m s sz Hs Hsz. eexists. split; [apply heap_init_repr, Hs|].
    simpl. rewrite wrap32_small; unfold HDR in *; lia.
Qed.

Lemma span_is_conserved_witness :
  (∀ n st' p, heap_alloc one_block n = Some (st', p) →
     ∃ l', heap_repr st' l' ∧ extent l' = 4096) ∧
  (∀ ptr st', ptr = NULL ∨ in_chain one_block (ptr - HDR) →
     heap_free one_block ptr = Some st' →
     ∃ l', heap_repr st' l' ∧ extent l' = 4096) ∧
  (∀ m s sz, 0 < s → HDR <= sz < 2 ^ 32 →
     ∃ l0, heap_repr (heap_init m s sz) l0 ∧ extent l0 = sz).
Proof.
  exact (span_is_conserved one_block one_block_chain one_block_repr).
Defined.

Lemma coalesce_list_inuse_prefix (us l : chunks) :
  Forall (λ x, inuse x.2 = true) us →
  coalesce_list (us ++ l) = us ++ coalesce_list l.
Proof.
  induction us as [|[a c] us IH]; intros Hus; [reflexivity|].
  apply Forall_cons in Hus as [Hc Hus]. simpl in Hc.
  specialize (IH Hus). cbn [app].
  destruct (us ++ l) as [|[b d] k] eqn:Hk.
  - destruct us; [|discriminate]. simpl in *. subst l. reflexivity.
  - rewrite coalesce_list_step, Hc. cbn [negb andb]. rewrite IH.
    reflexivity.
Qed.

Lemma free_total_inuse_prefix (us l : chunks) :
  Forall (λ x, inuse x.2 = true) us →
  free_total (us ++ l) = free_total l.
Proof.
  induction us as [|[a c] us IH]; intros Hus; [reflexivity|].
  apply Forall_cons in Hus as [Hc Hus]. simpl in *. rewrite Hc, IH; auto.
Qed.

(** X8. Last in, first out.  On a heap whose chain is a row of chunks in
    use followed by one free chunk, a successful [heap_alloc] followed by
    [heap_free] of the address it returned restores the chain exactly, and
    [avail] is then the size of the free chunk. *)
Theorem alloc_free_restores_stack st us a c n :
  heap_repr st (us ++ [(a, c)]) →
  Forall (λ x, inuse x.2 = true) us →
  inuse c = false → ALIGN n <= size c →
  ∃ st1 st2, heap_alloc st n = Some (st1, a + HDR) ∧
    heap_free st1 (a + HDR) = Some st2 ∧
    chain_of st2 (us ++ [(a, c)]) ∧
    avail (heap st2) = size c.
Proof.
  intros Hrep Hus Hfree Hsz.
  assert (Forall (λ x, fits (ALIGN n) x.2 = false) us) as Hno.
  { eapply Forall_impl; [exact Hus|]. intros x Hx.
    apply fits_false_iff. left. exact Hx. }
  assert (fits (ALIGN n) c = true) as Hfit by (apply fits_true_iff; auto).
  destruct (heap_alloc_repr_hit _ _ _ _ _ _ Hrep Hno Hfit)
    as (st1 & Hrun1 & _ & _ & Hrep1).
  pose proof Hrep as (_ & _ & Ht & _).
  apply tiles_app in Ht as [_ (_ & Hc & _)].
  pose proof (ALIGN_range n) as Hn.
  exists st1. unfold split_chunk in Hrep1.
  destruct c as [csz cuse cnext]. simpl in *. subst cuse.
  destruct (splits (ALIGN n) _) eqn:Hsp; cbn [app] in Hrep1.
  - unfold splits in Hsp. apply Z.leb_le in Hsp. simpl in Hsp.
    destruct (heap_free_repr _ _ _ _ _ Hrep1) as (st2 & Hrun2 & _ & Hrep2 & Hav).
    exists st2. split; [exact Hrun1|]. split; [exact Hrun2|].
    rewrite coalesce_list_inuse_prefix in Hrep2, Hav by exact Hus.
    rewrite free_total_inuse_prefix in Hav by exact Hus.
    rewrite coalesce_list_step in Hrep2, Hav.
    cbn [set_inuse inuse negb andb coalesce_list] in Hrep2, Hav.
    assert (absorb
              (set_inuse
                 {| size := ALIGN n; inuse := true;
                    next := a + HDR + ALIGN n |} false)
              {| size := csz - ALIGN n - HDR; inuse := false;
                 next := cnext |} =
            {| size := csz; inuse := false; next := cnext |}) as Hab.
    { unfold absorb, set_inuse. cbn [size inuse next]. f_equal.
      replace (ALIGN n + (HDR + (csz - ALIGN n - HDR))) with csz by lia.
      apply wrap32_small. lia. }
    rewrite Hab in Hrep2, Hav.
    split; [destruct Hrep2 as (_ & Hch2 & _); exact Hch2|].
    rewrite Hav. simpl. lia.
  - destruct (heap_free_repr _ _ _ _ _ Hrep1) as (st2 & Hrun2 & _ & Hrep2 & Hav).
    exists st2. split; [exact Hrun1|]. split; [exact Hrun2|].
    rewrite coalesce_list_inuse_prefix in Hrep2, Hav by exact Hus.
    rewrite free_total_inuse_prefix in Hav by exact Hus.
    cbn [set_inuse inuse coalesce_list size next] in Hrep2, Hav.
    split; [destruct Hrep2 as (_ & Hch2 & _); exact Hch2|].
    rewrite Hav. simpl. lia.
Qed.

Lemma alloc_free_restores_stack_witness :
  ∃ st1 st2, heap_alloc one_block 64 = Some (st1, 65680 + HDR) ∧
    heap_free st1 (65680 + HDR) = Some st2 ∧
    chain_of st2 one_block_chain ∧
    avail (heap st2) = 3936.
Proof.
  apply (alloc_free_restores_stack one_block
           [(65536, {| size := 128; inuse := true; next := 65680 |})]
           65680 {| size := 3936; inuse := false; next := 0 |} 64).
  - exact one_block_repr.
  - repeat constructor.
  - reflexivity.
  - vm_compute. discriminate.
Defined.

Lemma free_run3_tail x (l : chunks) :
  free_run3 (x :: l) = false → free_run3 l = false.
Proof.
  destruct x as [a c]. destruct l as [|[b d] [|[e f] l]]; try reflexivity.
  intros H. apply orb_false_iff in H as [_ H]. exact H.
Qed.

Lemma adjacent_free_step a c b d (l : chunks) :
  adjacent_free ((a, c) :: (b, d) :: l) =
    (negb (inuse c) && negb (inuse d)) || adjacent_free ((b, d) :: l).
Proof. reflexivity. Qed.

(** When no three chunks in a row are free, one walk merges every pair. *)
Lemma coalesce_without_run3 (l : chunks) :
  free_run3 l = false → adjacent_free (coalesce_list l) = false.
Proof.
  induction l as [| x | [a c] [b d] l IH1 IH2] using chunks_pair_ind;
    intros Hrun.
  - reflexivity.
  - destruct x. reflexivity.
  - pose proof (free_run3_tail _ _ Hrun) as Hrun1.
    rewrite coalesce_list_step.
    destruct (negb (inuse c) && negb (inuse d)) eqn:Hcd.
    + destruct l as [|[e f] l]; [reflexivity|].
      pose proof (free_run3_tail _ _ Hrun1) as Hrun2.
      specialize (IH1 Hrun2).
      cbn [free_run3] in Hrun. apply orb_false_iff in Hrun as [Hcdf _].
      rewrite Hcd in Hcdf. cbn [andb] in Hcdf.
      destruct (coalesce_list_head e f l) as (f' & l' & Heq & Hf').
      rewrite Heq in *. rewrite adjacent_free_step, IH1, Hf', Hcdf.
      rewrite andb_false_r. reflexivity.
    + specialize (IH2 Hrun1).
      destruct (coalesce_list_head b d l) as (d' & l' & Heq & Hd').
      rewrite Heq in *. rewrite adjacent_free_step, IH2, Hd', Hcd.
      reflexivity.
Qed.

(** X9. Coalescing is complete when runs are short: if marking the freed
    chunk free leaves no three free chunks in a row, the chain after
    [heap_free] has no two adjacent free chunks. *)
Theorem free_merges_short_runs st l1 a c l2 :
  heap_repr st (l1 ++ (a, c) :: l2) →
  free_run3 (l1 ++ (a, set_inuse c false) :: l2) = false →
  ∃ st' l', heap_free st (a + HDR) = Some st' ∧ chain_of st' l' ∧
    adjacent_free l' = false.
Proof.
  intros Hrep Hrun.
  destruct (heap_free_repr _ _ _ _ _ Hrep) as (st' & Hfree & _ & Hrep' & _).
  exists st', (coalesce_list (l1 ++ (a, set_inuse c false) :: l2)).
  split; [exact Hfree|]. split; [destruct Hrep' as (_ & H & _); exact H|].
  apply coalesce_without_run3, Hrun.
Qed.

Lemma free_merges_short_runs_witness :
  ∃ st' l', heap_free fragmented (1944 + HDR) = Some st' ∧ chain_of st' l' ∧
    adjacent_free l' = false.
Proof.
  apply (free_merges_short_runs fragmented
           [(1000, {| size := 104; inuse := true; next := 1120 |});
            (1120, {| size := 512; inuse := false; next := 1648 |});
            (1648, {| size := 8; inuse := true; next := 1672 |});
            (1672, {| size := 256; inuse := false; next := 1944 |})]
           1944 {| size := 8; inuse := true; next := 0 |} []).
  - exact fragmented_repr.
  - reflexivity.
Defined.

(** ** Edge behaviour of [heap_init], [heap_alloc] and [heap_realloc] *)

Lemma wrap32_negative z : - 2 ^ 32 <= z < 0 → wrap32 z = z + 2 ^ 32.
Proof.
  intros Hz. unfold wrap32.
  replace z with (z + 2 ^ 32 + (-1) * 2 ^ 32) at 1 by lia.
  rewrite Z.mod_add by lia. apply Z.mod_small. lia.
Qed.

Lemma read_chain_complete (m : memory) (l : chunks) :
  ∀ fuel p, chain m p l → (length l < fuel)%nat →
    read_chain fuel m p = Some l.
Proof.
  induction l as [|[a c] l IH]; intros fuel p Hch Hlen;
    (destruct fuel as [|fuel]; [simpl in Hlen; lia|]); simpl in *.
  - subst p. reflexivity.
  - destruct Hch as (-> & Hne & Hc & Hl).
    apply Z.eqb_neq in Hne. rewrite Hne, Hc, (IH fuel (next c) Hl); [|lia].
    reflexivity.
Qed.

Lemma heap_chain_complete st l : chain_of st l → heap_chain st = Some l.
Proof.
  intros Hch. apply read_chain_complete; [exact Hch|].
  eapply chain_length, Hch.
Qed.

(** X10. [heap_init] does not reject a span that is shorter than one
    header: the subtraction of the header width wraps around, so the size
    of the first and only chunk and [avail] are [2^32 - HDR + sz], more
    than the [sz] bytes of the span. *)
Theorem init_short_span_wraps (m : memory) s sz :
  0 < s → 0 <= sz < HDR →
  heap_chain (heap_init m s sz) =
    Some [(s, {| size := 2 ^ 32 - HDR + sz; inuse := false; next := NULL |})] ∧
  avail (heap (heap_init m s sz)) = 2 ^ 32 - HDR + sz ∧
  sz < avail (heap (heap_init m s sz)).
Proof.
  intros Hs Hsz.
  assert (wrap32 (sz - HDR) = 2 ^ 32 - HDR + sz) as Hw
    by (rewrite wrap32_negative; unfold HDR in *; lia).
  pose proof (heap_init_repr m s sz Hs) as Hrep. rewrite Hw in Hrep.
  split; [|split].
  - apply heap_chain_complete. destruct Hrep as (_ & Hch & _). exact Hch.
  - exact Hw.
  - cbn [heap_init heap avail]. rewrite Hw. unfold HDR in *. lia.
Qed.

Lemma init_short_span_wraps_witness :
  heap_chain (heap_init ∅ 65536 8) =
    Some [(65536,
           {| size := 2 ^ 32 - HDR + 8; inuse := false; next := NULL |})] ∧
  avail (heap (heap_init ∅ 65536 8)) = 2 ^ 32 - HDR + 8 ∧
  8 < avail (heap (heap_init ∅ 65536 8)).
Proof.
  apply (init_short_span_wraps ∅ 65536 8); [lia|].
  vm_compute. split; [discriminate | reflexivity].
Defined.

(** The header that a successful [heap_alloc] leaves in front of the
    address it returns. *)
Lemma heap_alloc_header st n st' p :
  heap_alloc st n = Some (st', p) → p ≠ NULL →
  ∃ c', mem st' !! (p - HDR) = Some c' ∧ inuse c' = true ∧
    ALIGN n <= size c' < ALIGN n + HDR + ALIGNMENT.
Proof.
  unfold heap_alloc. intros Hrun Hp.
  destruct (alloc_loop _ _ _ _) as [[m' r]|] eqn:Hloop; [|discriminate].
  injection Hrun as <- <-.
  destruct (alloc_loop_result _ _ _ _ _ _ Hloop Hp)
    as (a & c & -> & Hc & Hfit & ->).
  destruct (take_chunk_lookup (mem st) a c (ALIGN n))
    as (c' & Hc' & Hsz & Huse).
  apply fits_true_iff in Hfit as [_ Hfit].
  exists c'. cbn [mem]. replace (a + HDR - HDR) with a by lia.
  split; [exact Hc'|]. split; [exact Huse|]. rewrite Hsz.
  unfold splits. destruct (ALIGN n + HDR + ALIGNMENT <=? size c) eqn:Hsp.
  - unfold HDR, ALIGNMENT. lia.
  - apply Z.leb_gt in Hsp. lia.
Qed.

(** X11. Bounded slack: the block that [heap_alloc] hands out for a
    request of [n] bytes has at least [ALIGN n] bytes and fewer than
    [ALIGN n] plus one header width plus one alignment unit. *)
Theorem alloc_slack_is_bounded st n st' p :
  heap_alloc st n = Some (st', p) → p ≠ NULL →
  ∃ sz, heap_sizeof (mem st') p = Some sz ∧
    ALIGN n <= sz < ALIGN n + HDR + ALIGNMENT.
Proof.
  intros Hrun Hp.
  destruct (heap_alloc_header _ _ _ _ Hrun Hp) as (c' & Hc' & _ & Hsz).
  exists (size c'). split; [|exact Hsz].
  unfold heap_sizeof. apply Z.eqb_neq in Hp. rewrite Hp, Hc'. reflexivity.
Qed.

Lemma alloc_slack_is_bounded_witness :
  ∃ sz, heap_sizeof (mem one_block) 65552 = Some sz ∧
    ALIGN 128 <= sz < ALIGN 128 + HDR + ALIGNMENT.
Proof.
  apply (alloc_slack_is_bounded arena 128 one_block 65552).
  - vm_compute. reflexivity.
  - vm_compute. discriminate.
Defined.

Lemma coalesce_list_keys (Q : Z → Prop) (l : chunks) :
  Forall (λ x, Q x.1) l → Forall (λ x, Q x.1) (coalesce_list l).
Proof.
  induction l as [| x | [a c] [b d] l IH1 IH2] using chunks_pair_ind;
    intros Hall.
  - constructor.
  - destruct x. exact Hall.
  - rewrite coalesce_list_step.
    apply Forall_cons in Hall as [Ha Hall].
    pose proof Hall as Hall'. apply Forall_cons in Hall' as [_ Hl].
    destruct (negb (inuse c) && negb (inuse d)); constructor; auto.
Qed.

(** The headers of the chain sit at multiples of the alignment unit from
    [start]. *)
Lemma reachable_aligned st :
  reachable st →
  ∃ l, heap_repr st l ∧
    Forall (λ x, (ALIGNMENT | x.1 - start (heap st))) l.
Proof.
  induction 1 as [m s sz Hs | st n st' p _ IH Hrun | st ptr st' _ IH Hp Hrun].
  - eexists. split; [apply heap_init_repr, Hs|].
    repeat constructor. cbn. rewrite Z.sub_diag. apply Z.divide_0_r.
  - destruct IH as (l & Hrep & Hal).
    destruct (heap_alloc_cases st l n Hrep)
      as [[_ Hrun']|(l1 & a & c & l2 & st'' & -> & _ & _ & Hrun' & _ & Hheap
                     & _ & Hrep')].
    + assert (st' = st) as -> by congruence. eauto.
    + assert (st'' = st') as -> by congruence.
      eexists. split; [exact Hrep'|]. rewrite Hheap.
      apply Forall_app in Hal as [Hal1 Hal2].
      apply Forall_cons in Hal2 as [Ha Hal2]. cbn in Ha.
      apply Forall_app. split; [exact Hal1|].
      apply Forall_app. split; [|exact Hal2].
      unfold split_chunk. destruct (splits (ALIGN n) c);
        repeat constructor; cbn; try exact Ha.
      replace (a + HDR + ALIGN n - start (heap st))
        with (a - start (heap st) + (HDR + ALIGN n)) by lia.
      apply Z.divide_add_r; [exact Ha|].
      rewrite ALIGN_eq. exists (2 + wrap32 (n + 7) / 8).
      unfold HDR, ALIGNMENT. lia.
  - destruct IH as (l & Hrep & Hal).
    destruct Hp as [->|(l' & Hch' & Hin)].
    + assert (st' = st) as -> by (cbn in Hrun; congruence). eauto.
    + pose proof Hrep as (_ & Hch & _).
      assert (l' = l) as -> by (eapply chain_functional; eassumption).
      destruct (chain_from_member _ _ _ _ Hch Hin) as (l1 & c & l2 & -> & _).
      destruct (heap_free_repr _ _ _ _ _ Hrep)
        as (st'' & Hrun' & Hstart & Hrep' & _).
      replace (ptr - HDR + HDR) with ptr in Hrun' by lia.
      assert (st'' = st') as -> by congruence.
      eexists. split; [exact Hrep'|]. rewrite Hstart.
      apply (coalesce_list_keys (λ a, (ALIGNMENT | a - start (heap st)))).
      apply Forall_app in Hal as [Hal1 Hal2].
      apply Forall_cons in Hal2 as [Ha Hal2].
      apply Forall_app. split; [exact Hal1|]. constructor; assumption.
Qed.

(** X12. Alignment is kept: in every heap that the operations produce,
    the addresses that [heap_alloc] returns are multiples of the alignment
    unit whenever the address of the span is. *)
Theorem alloc_address_is_aligned st n st' p :
  reachable st → heap_alloc st n = Some (st', p) → p ≠ NULL →
  start (heap st) mod ALIGNMENT = 0 → p mod ALIGNMENT = 0.
Proof.
  intros Hr Hrun Hp Hstart.
  destruct (reachable_aligned st Hr) as (l & Hrep & Hal).
  destruct (heap_alloc_cases st l n Hrep)
    as [[_ Hrun']|(l1 & a & c & l2 & st'' & -> & _ & _ & Hrun' & _)];
    [congruence|].
  assert (p = a + HDR) as -> by congruence.
  apply Forall_app in Hal as [_ Hal]. apply Forall_cons in Hal as [Ha _].
  cbn in Ha. apply Z.mod_divide in Hstart; [|unfold ALIGNMENT; lia].
  apply Z.mod_divide; [unfold ALIGNMENT; lia|].
  replace (a + HDR) with (a - start (heap st) + (start (heap st) + HDR))
    by lia.
  apply Z.divide_add_r; [exact Ha|].
  apply Z.divide_add_r; [exact Hstart|]. exists 2. reflexivity.
Qed.

Lemma alloc_address_is_aligned_witness :
  ∃ st', heap_alloc one_block 61 = Some (st', 65696) ∧
    65696 mod ALIGNMENT = 0.
Proof.
  eexists. split; [vm_compute; reflexivity|].
  eapply (alloc_address_is_aligned one_block 61 _ 65696 one_block_reachable);
    [vm_compute; reflexivity | vm_compute; discriminate | reflexivity].
Defined.

Lemma wrap64_range z : 0 <= wrap64 z < 2 ^ 64.
Proof. unfold wrap64. apply Z.mod_pos_bound. lia. Qed.

Lemma ALIGN64_eq k : ALIGN64 k = 8 * (wrap64 (k + 7) / 8).
Proof.
  unfold ALIGN64. change (ALIGNMENT - 1) with 7.
  change (wrap64 (Z.lnot 7)) with (Z.ldiff (Z.ones 64) (Z.ones 3)).
  pose proof (wrap64_range (k + 7)) as Hx.
  transitivity (Z.ldiff (Z.land (wrap64 (k + 7)) (Z.ones 64)) (Z.ones 3)).
  - apply Z.bits_inj'. intros i Hi.
    rewrite Z.land_spec, !Z.ldiff_spec, Z.land_spec.
    destruct (Z.testbit (wrap64 (k + 7)) i), (Z.testbit (Z.ones 64) i),
      (Z.testbit (Z.ones 3) i); reflexivity.
  - rewrite Z.land_ones by lia. rewrite (Z.mod_small (wrap64 (k + 7))) by lia.
    rewrite Z.ldiff_ones_r by lia.
    rewrite Z.shiftr_div_pow2, Z.shiftl_mul_pow2 by lia.
    change (2 ^ 3) with 8. lia.
Qed.

(** X13. Resizing within what was asked for stays in place: after a
    successful [heap_alloc] of [n] bytes, [heap_realloc] of the returned
    address to any size from 1 to [ALIGN n] returns the same address and
    calls neither [malloc] nor [free]. *)
Theorem realloc_within_request_in_place st n st' p k r :
  heap_alloc st n = Some (st', p) → p ≠ NULL → 0 < k <= ALIGN n →
  heap_realloc (mem st') p k r = Some (p, []).
Proof.
  intros Hrun Hp Hk.
  destruct (heap_alloc_header _ _ _ _ Hrun Hp) as (c' & Hc' & _ & Hsz).
  unfold heap_realloc. apply Z.eqb_neq in Hp. rewrite Hp.
  assert ((k =? 0) = false) as -> by (apply Z.eqb_neq; lia).
  rewrite Hc'.
  assert ((ALIGN64 k <=? size c') = true) as ->; [|reflexivity].
  apply Z.leb_le. rewrite ALIGN64_eq.
  pose proof (ALIGN_range n) as Hn. pose proof (ALIGN_eq n) as Heq.
  unfold wrap64. rewrite (Z.mod_small (k + 7)) by lia.
  pose proof (Z.div_mod (k + 7) 8 ltac:(lia)).
  pose proof (Z.mod_pos_bound (k + 7) 8 ltac:(lia)). lia.
Qed.

Lemma realloc_within_request_in_place_witness :
  heap_realloc (mem one_block) 65552 100 0 = Some (65552, []).
Proof.
  apply (realloc_within_request_in_place arena 128 one_block 65552 100 0).
  - vm_compute. reflexivity.
  - vm_compute. discriminate.
  - vm_compute. split; [reflexivity | discriminate].
Defined.

(** X14. The alignment of the new size wraps in [heap_realloc] too: for a
    size above [2^64 - 8] the aligned size is 0, so the call returns the
    old address as if the block had been resized, whatever the size of
    the chunk, and makes no call to the library. *)
Theorem realloc_huge_size_in_place (m : memory) ptr c k r :
  ptr ≠ NULL → m !! (ptr - HDR) = Some c → 0 <= size c →
  2 ^ 64 - 8 < k < 2 ^ 64 →
  ALIGN64 k = 0 ∧ heap_realloc m ptr k r = Some (ptr, []).
Proof.
  intros Hp Hc Hsz Hk.
  assert (ALIGN64 k = 0) as Hal.
  { rewrite ALIGN64_eq. unfold wrap64.
    replace (k + 7) with ((k + 7 - 2 ^ 64) + 1 * 2 ^ 64) by lia.
    rewrite Z.mod_add by lia. rewrite Z.mod_small by lia.
    rewrite Z.div_small by lia. reflexivity. }
  split; [exact Hal|].
  unfold heap_realloc. apply Z.eqb_neq in Hp. rewrite Hp.
  assert ((k =? 0) = false) as -> by (apply Z.eqb_neq; lia).
  rewrite Hc, Hal.
  assert ((0 <=? size c) = true) as -> by (apply Z.leb_le; exact Hsz).
  reflexivity.
Qed.

Lemma realloc_huge_size_in_place_witness :
  ALIGN64 18446744073709551615 = 0 ∧
  heap_realloc (mem one_block) 65552 18446744073709551615 0 =
    Some (65552, []).
Proof.
  apply (realloc_huge_size_in_place (mem one_block) 65552
           {| size := 128; inuse := true; next := 65680 |}
           18446744073709551615 0).
  - vm_compute. discriminate.
  - vm_compute. reflexivity.
  - vm_compute. discriminate.
  - vm_compute. split; reflexivity.
Defined.

(** ** The snapshot of [heap_info] *)

Lemma string_length_append (a b : string) :
  String.length (a +:+ b) = (String.length a + String.length b)%nat.
Proof. induction a as [|x a IH]; simpl; [reflexivity | rewrite IH; lia]. Qed.

Lemma chunk_line_length show_ptr x :
  (26 <= String.length (chunk_line show_ptr x))%nat.
Proof.
  unfold chunk_line. rewrite !string_length_append.
  destruct (inuse x.2); simpl; lia.
Qed.

Lemma chunk_lines_length show_ptr (l : chunks) :
  (26 * length l <= String.length (chunk_lines show_ptr l))%nat.
Proof.
  induction l as [|x l IH]; [simpl; lia|].
  cbn [chunk_lines length]. rewrite string_length_append.
  pose proof (chunk_line_length show_ptr x). lia.
Qed.

(** X15. [heap_info] writes past its buffer on crowded heaps: each chunk
    adds at least 26 characters whatever the text of [%p] and of the
    size, so with 40 chunks or more in the chain the text does not fit
    in the 1024 bytes of [buffer]. *)
Theorem heap_info_overruns_buffer show_ptr st l :
  chain_of st l → (40 <= length l)%nat → heap_info show_ptr st = None.
Proof.
  intros Hch Hlen. unfold heap_info.
  rewrite (heap_chain_complete _ _ Hch). cbv zeta.
  assert ((Z.of_nat (String.length (heap_info_text show_ptr st l)) + 1
           <=? INFO_BUFFER) = false) as ->; [|reflexivity].
  apply Z.leb_gt. unfold heap_info_text, INFO_BUFFER.
  rewrite !string_length_append.
  pose proof (chunk_lines_length show_ptr l). lia.
Qed.

Lemma heap_info_overruns_buffer_witness :
  ∃ st, alloc_many 40 arena 8 = Some st ∧
    heap_info (λ _, "0x0"%string) st = None.
Proof.
  eexists. split; [vm_compute; reflexivity|].
  eapply heap_info_overruns_buffer.
  - apply heap_chain_sound. vm_compute. reflexivity.
  - vm_compute. lia.
Defined.

(** ** Accounting of the free payload *)

Lemma free_total_app (l1 l2 : chunks) :
  free_total (l1 ++ l2) = free_total l1 + free_total l2.
Proof.
  induction l1 as [|[a c] l1 IH]; simpl; [reflexivity|]. rewrite IH. lia.
Qed.



(** Every chunk that the walk absorbs gives its header to the payload. *)
Lemma free_total_coalesce (l : chunks) :
  ∀ p, tiles p l → extent l <= 2 ^ 32 + HDR - 1 →
    free_total (coalesce_list l) + HDR * Z.of_nat (length (coalesce_list l))
    = free_total l + HDR * Z.of_nat (length l).
Proof.
  induction l as [| x | [a c] [b d] l IH1 IH2] using chunks_pair_ind;
    intros p Ht Hext.
  - reflexivity.
  - destruct x. reflexivity.
  - rewrite coalesce_list_step.
    pose proof Ht as (Ha & Hc & Hb & Hd & Ht2).
    pose proof (tiles_extent_nonneg _ _ Ht2) as Hnn.
    cbn [extent] in Hext.
    destruct (inuse c) eqn:Hic; cbn [negb andb];
      [|destruct (inuse d) eqn:Hid; cbn [negb andb]].
    + destruct Ht as (_ & _ & Ht).
      specialize (IH2 _ Ht ltac:(cbn [extent]; unfold HDR in *; lia)).
      cbn [free_total length] in *. rewrite Hic in *. lia.
    + destruct Ht as (_ & _ & Ht).
      specialize (IH2 _ Ht ltac:(cbn [extent]; unfold HDR in *; lia)).
      cbn [free_total length] in *. rewrite Hic, Hid in *. lia.
    + specialize (IH1 _ Ht2 ltac:(unfold HDR in *; lia)).
      cbn [free_total length absorb inuse size]. rewrite Hic, Hid.
      rewrite wrap32_small by (unfold HDR in *; lia). lia.
Qed.

Lemma coalesce_list_length (l : chunks) :
  (length (coalesce_list l) <= length l)%nat.
Proof.
  induction l as [| x | [e f] [g h] k IH1 IH2] using chunks_pair_ind.
  - simpl. lia.
  - destruct x. simpl. lia.
  - rewrite coalesce_list_step.
    destruct (negb (inuse f) && negb (inuse h)); simpl in *; lia.
Qed.

(** X17. What [heap_free] gives back: after [heap_free] of a block in
    use, [avail] is the free payload that the chain had, plus the size of
    the block, plus one header width for every chunk that the walk merged
    into its predecessor. *)
Theorem free_gives_back st l1 a c l2 :
  heap_repr st (l1 ++ (a, c) :: l2) → inuse c = true →
  ∃ st' l', heap_free st (a + HDR) = Some st' ∧ chain_of st' l' ∧
    (length l' <= length (l1 ++ (a, c) :: l2))%nat ∧
    avail (heap st') =
      free_total (l1 ++ (a, c) :: l2) + size c +
      HDR * (Z.of_nat (length (l1 ++ (a, c) :: l2)) - Z.of_nat (length l')).
Proof.
  intros Hrep Hused.
  destruct (heap_free_repr _ _ _ _ _ Hrep) as (st' & Hrun & _ & Hrep' & Hav).
  pose proof Hrep as (_ & _ & Ht & Hext).
  destruct (tiles_update l1 l2 a c (set_inuse c false) _ eq_refl Ht)
    as [Ht1 He1].
  pose proof (free_total_coalesce _ _ Ht1 ltac:(lia)) as Hacc.
  pose proof (free_total_bounds _ _ Ht1) as [Hf0 _].
  destruct Hrep' as (_ & Hch' & Ht' & _).
  pose proof (free_total_bounds _ _ Ht') as [Hf0' _].
  eexists st', _. split; [exact Hrun|]. split; [exact Hch'|].
  rewrite Hav.
  assert (free_total (l1 ++ (a, set_inuse c false) :: l2) =
          free_total (l1 ++ (a, c) :: l2) + size c) as Hft.
  { rewrite !free_total_app. simpl. rewrite Hused. lia. }
  assert (length (l1 ++ (a, set_inuse c false) :: l2) =
          length (l1 ++ (a, c) :: l2)) as Hlen
    by (rewrite !length_app; reflexivity).
  rewrite Hft, Hlen in Hacc.
  assert (length (coalesce_list (l1 ++ (a, set_inuse c false) :: l2))
          <= length (l1 ++ (a, c) :: l2))%nat as Hle.
  { rewrite <- Hlen. apply coalesce_list_length. }
  split; [exact Hle|]. unfold HDR in *. lia.
Qed.

Lemma free_gives_back_witness :
  ∃ st' l', heap_free fragmented (1648 + HDR) = Some st' ∧ chain_of st' l' ∧
    (length l' <= length fragmented_chain)%nat ∧
    avail (heap st') =
      free_total fragmented_chain + 8 +
      HDR * (Z.of_nat (length fragmented_chain) - Z.of_nat (length l')).
Proof.
  apply (free_gives_back fragmented
           [(1000, {| size := 104; inuse := true; next := 1120 |});
            (1120, {| size := 512; inuse := false; next := 1648 |})]
           1648 {| size := 8; inuse := true; next := 1672 |}
           [(1672, {| size := 256; inuse := false; next := 1944 |});
            (1944, {| size := 8; inuse := true; next := 0 |})]).
  - exact fragmented_repr.
  - reflexivity.
Defined.
